(** * prompt-compare: link validation engine and evaluation orchestrator

    A shallow embedding of [src/src/enhanced_link_validation.py]
    ([EnhancedLinkValidator]) and [src/src/multi_prompt_evaluator.py]
    ([MultiPromptEvaluator]), with the properties of the specification
    stated and settled against it.

    Conventions.
    - Python [str] values are [string]s, a character standing for the code
      point of its number: the texts of the model are those of the code
      points 0 to 255, and on them the character classes, [str.lower] and
      [str.strip] are those of Python.  A text with a code point above 255
      is not a value of the model.
    - [None] is [option]'s [None]; a result dict is a record.
    - The network, the clock, the console and the thread pool are explicit:
      an environment gives the outcome of each request, a script gives the
      operator's console lines, a schedule gives the completion order of the
      pool's futures.
    - [len] counts the characters of a [string].
    - [/] on Python numbers is exact division in [Q], raising on a zero
      divisor where the code does not exclude one; floating-point rounding
      is not modelled. *)

From Stdlib Require Import String Ascii List Bool Arith ZArith QArith Qfield Lia.
From Stdlib Require Import Permutation Sorted DecimalString.
Import ListNotations.
Close Scope Q_scope.
Open Scope string_scope.
Open Scope list_scope.

(** ** Strings *)

Definition is_upper (c : ascii) : bool :=
  let n := nat_of_ascii c in (65 <=? n)%nat && (n <=? 90)%nat.

Definition is_lower (c : ascii) : bool :=
  let n := nat_of_ascii c in (97 <=? n)%nat && (n <=? 122)%nat.

Definition is_digit (c : ascii) : bool :=
  let n := nat_of_ascii c in (48 <=? n)%nat && (n <=? 57)%nat.

(** The upper-case letters above 127: 192 to 214 and 216 to 222. *)
Definition is_upper_latin (c : ascii) : bool :=
  let n := nat_of_ascii c in
  ((192 <=? n)%nat && (n <=? 214)%nat) || ((216 <=? n)%nat && (n <=? 222)%nat).

(** [str.lower] on one character: the lower-case letter of a letter stands
    32 code points above it. *)
Definition lower (c : ascii) : ascii :=
  if is_upper c || is_upper_latin c then ascii_of_nat (nat_of_ascii c + 32)
  else c.

(** The upper-case letter of an ASCII lower-case letter; any other
    character is left as it is. *)
Definition upper (c : ascii) : ascii :=
  if is_lower c then ascii_of_nat (nat_of_ascii c - 32) else c.

Fixpoint str_lower (s : string) : string :=
  match s with
  | EmptyString => EmptyString
  | String c rest => String (lower c) (str_lower rest)
  end.

(** [c in chars] for a one-character string [c]. *)
Fixpoint char_in (c : ascii) (chars : string) : bool :=
  match chars with
  | EmptyString => false
  | String d rest => Ascii.eqb c d || char_in c rest
  end.

(** [s.startswith(p)] *)
Definition startswith (p s : string) : bool := String.prefix p s.

(** [s[:n]] *)
Fixpoint take (n : nat) (s : string) : string :=
  match n, s with
  | S k, String c rest => String c (take k rest)
  | _, _ => EmptyString
  end.

(** ** Regular expressions, as [re] matches them

    Only the constructs of the two patterns of [extract_links] are given.
    [run r s] lists, in the order a backtracking matcher tries them, the
    texts that remain after [r] has matched a prefix of [s]; the first one
    is the match [re] reports at that position.  All literals and classes
    match under [re.IGNORECASE]: a literal matches the characters that
    lower to what it lowers to, and a class those of which the character
    itself or its other case is a member. *)

Inductive regex : Type :=
| Eps
| Lit (c : ascii)
| Class (p : ascii -> bool)
| Seq (r1 r2 : regex)
| Alt (r1 r2 : regex)
| Opt (r : regex)
| Star (r : regex)
| Plus (r : regex)
| Rep (n : nat) (r : regex).

(** A literal text: one [Lit] per character. *)
Fixpoint Str (s : string) : regex :=
  match s with
  | EmptyString => Eps
  | String c rest => Seq (Lit c) (Str rest)
  end.

(** Greedy repetition of [step] from [s].  An iteration must consume at
    least one character, so [String.length s] iterations are all there can
    be: [fuel] is never the reason for stopping when it starts there. *)
Fixpoint iterate (step : string -> list string) (fuel : nat) (s : string)
  : list string :=
  match fuel with
  | O => [s]
  | S n =>
      flat_map (iterate step n)
        (filter (fun s' => (String.length s' <? String.length s)%nat) (step s))
      ++ [s]
  end.

Fixpoint run (r : regex) (s : string) : list string :=
  match r with
  | Eps => [s]
  | Lit c =>
      match s with
      | String a rest => if Ascii.eqb (lower a) (lower c) then [rest] else []
      | EmptyString => []
      end
  | Class p =>
      match s with
      | String a rest => if p a || p (lower a) || p (upper a) then [rest] else []
      | EmptyString => []
      end
  | Seq r1 r2 => flat_map (run r2) (run r1 s)
  | Alt r1 r2 => run r1 s ++ run r2 s
  | Opt r1 => run r1 s ++ [s]
  | Star r1 => iterate (run r1) (String.length s) s
  | Plus r1 =>
      flat_map (fun s' => iterate (run r1) (String.length s') s') (run r1 s)
  | Rep n r1 =>
      Nat.iter n (fun k s0 => flat_map k (run r1 s0)) (fun s0 => [s0]) s
  end.

(** The match of [r] that starts at the beginning of [s], if any. *)
Definition match_at (r : regex) (s : string) : option string :=
  match run r s with
  | rest :: _ => Some (take (String.length s - String.length rest) s)
  | [] => None
  end.

(** [re.finditer]: the non-overlapping matches from left to right, each with
    the offset it starts at.  [skip] counts the characters of the last match
    still to be passed over. *)
Fixpoint scan (r : regex) (skip pos : nat) (s : string) : list (nat * string) :=
  match s with
  | EmptyString =>
      match skip, match_at r s with
      | O, Some m => [(pos, m)]
      | _, _ => []
      end
  | String _ rest =>
      match skip with
      | S k => scan r k (S pos) rest
      | O =>
          match match_at r s with
          | Some m => (pos, m) :: scan r (String.length m - 1) (S pos) rest
          | None => scan r 0 (S pos) rest
          end
      end
  end.

Definition finditer (r : regex) (text : string) : list (nat * string) :=
  scan r 0 0 text.

(** [re.findall(pattern, text, re.IGNORECASE)] for a pattern without
    capturing groups. *)
Definition findall (r : regex) (text : string) : list string :=
  map snd (finditer r text).

(** ** [EnhancedLinkValidator.extract_links] *)

(** The characters above 127 that [str.isalnum] accepts: the ordinal
    indicators 170 and 186, the micro sign 181, the superscript digits 178,
    179 and 185, the fractions 188 to 190, and the letters 192 to 255 apart
    from the multiplication sign 215 and the division sign 247. *)
Definition is_alnum_latin (c : ascii) : bool :=
  let n := nat_of_ascii c in
  (n =? 170)%nat || (n =? 178)%nat || (n =? 179)%nat || (n =? 181)%nat
  || (n =? 185)%nat || (n =? 186)%nat
  || ((188 <=? n)%nat && (n <=? 190)%nat)
  || ((192 <=? n)%nat && negb (n =? 215)%nat && negb (n =? 247)%nat).

(** The word characters: letters, digits and the underscore. *)
Definition word_char (c : ascii) : bool :=
  is_upper c || is_lower c || is_digit c || Ascii.eqb c "_"
  || is_alnum_latin c.

(** The class of a hyphen, a word character or a dot. *)
Definition host_char (c : ascii) : bool :=
  Ascii.eqb c "-" || word_char c || Ascii.eqb c ".".

(** The class of hexadecimal digits. *)
Definition hex_char (c : ascii) : bool :=
  is_digit c || char_in c "abcdefABCDEF".

(** The class of the path characters. *)
Definition path_char (c : ascii) : bool :=
  Ascii.eqb c "-" || word_char c || char_in c "%!./?=&+#".

(** The path part of both patterns: any number of groups, each a slash
    followed by any number of path characters. *)
Definition path_part : regex :=
  Star (Seq (Lit "/") (Star (Class path_char))).

(** The first pattern: http, an optional s, a colon and two slashes, one or
    more host items (a host character, or a percent sign and two
    hexadecimal digits), then the path part. *)
Definition scheme_pattern : regex :=
  Seq (Str "http") (Seq (Opt (Lit "s")) (Seq (Str "://")
    (Seq (Plus (Alt (Class host_char) (Seq (Lit "%") (Rep 2 (Class hex_char)))))
         path_part))).

(** The second pattern: www and a dot, one or more host characters, then
    the path part. *)
Definition www_pattern : regex :=
  Seq (Str "www.") (Seq (Plus (Class host_char)) path_part).

Definition patterns : list regex := [scheme_pattern; www_pattern].

(** The characters stripped from the right edge: full stop, comma, colon,
    semicolon, exclamation and question marks, the three closing brackets,
    the greater-than sign, and the double (034) and single (039) quotes. *)
Definition trailing_punctuation : string :=
  (".,:;!?)]}>" ++ String "034" (String "039" EmptyString))%string.

(** The loop that drops the last character while it is one of those. *)
Fixpoint strip_trailing (link : string) : string :=
  match link with
  | EmptyString => EmptyString
  | String c rest =>
      match strip_trailing rest with
      | EmptyString =>
          if char_in c trailing_punctuation then EmptyString
          else String c EmptyString
      | kept => String c kept
      end
  end.

(** The body of the cleaning loop for one match. *)
Definition clean_link (link : string) : option string :=
  let link := if startswith "www." link then ("https://" ++ link)%string else link in
  let link := strip_trailing link in
  if negb (String.eqb link "") && (10 <? String.length link)%nat
     && char_in "." link
  then Some link else None.

Fixpoint cleaned_links (all_links : list string) : list string :=
  match all_links with
  | [] => []
  | link :: rest =>
      match clean_link link with
      | Some l => l :: cleaned_links rest
      | None => cleaned_links rest
      end
  end.

(** [link in seen] *)
Definition in_seen (link : string) (seen : list string) : bool :=
  existsb (String.eqb link) seen.

(** The deduplication loop, from a given [seen] set. *)
Fixpoint unique_links (seen : list string) (links : list string) : list string :=
  match links with
  | [] => []
  | link :: rest =>
      if in_seen link seen then unique_links seen rest
      else link :: unique_links (link :: seen) rest
  end.

(** [all_links]: the matches of the first pattern, then those of the second. *)
Definition all_links (text : string) : list string :=
  flat_map (fun pattern => findall pattern text) patterns.

Definition extract_links (text : string) : list string :=
  unique_links [] (cleaned_links (all_links text)).

(** ** The world of one probe

    A call into a library either returns or raises; an exception is kept as
    the text [str(e)] gives. *)

Inductive Raises (A : Type) : Type :=
| Value (a : A)
| Raise (msg : string).
Arguments Value {A} a.
Arguments Raise {A} msg.

Inductive Method : Type := HEAD | GET.

Definition method_name (m : Method) : string :=
  match m with HEAD => "HEAD" | GET => "GET" end.

(** What [urlparse] returns, as far as the prober reads it. *)
Record ParseResult : Type := {
  scheme : string;
  netloc : string
}.

(** A [requests.Response]: the status code, the final [url] and the length of
    [history]. *)
Record Response : Type := {
  status_code : Z;
  url : string;
  history : nat
}.

(** What surrounds one run of the retry coordinator: the parser, the outcome
    of its [n]-th request (counted from 0), and the milliseconds elapsed
    since [start_time] as read after [n] requests. *)
Record Env : Type := {
  urlparse : string -> Raises ParseResult;
  request : nat -> Method -> string -> Raises Response;
  clock_ms : nat -> Z
}.

(** The state a run threads: the requests sent so far and the seconds
    slept. *)
Record World : Type := {
  sent : list (Method * string);
  slept : nat
}.

Definition start : World := {| sent := []; slept := 0 |}.

Definition M (A : Type) : Type := World -> A * World.

Definition ret {A : Type} (a : A) : M A := fun w => (a, w).

Definition bind {A B : Type} (c : M A) (k : A -> M B) : M B :=
  fun w => let (a, w') := c w in k a w'.

Notation "x <- c ;; k" := (bind c (fun x => k))
  (at level 61, c at next level, right associativity).
Notation "c ;;; k" := (bind c (fun _ => k))
  (at level 61, right associativity).

(** [self.session.head(url, ...)] or [self.session.get(url, ...)]. *)
Definition send (env : Env) (m : Method) (u : string) : M (Raises Response) :=
  fun w =>
    (request env (List.length (sent w)) m u,
     {| sent := sent w ++ [(m, u)]; slept := slept w |}).

(** [int((time.time() - start_time) * 1000)] *)
Definition elapsed (env : Env) : M Z :=
  fun w => (clock_ms env (List.length (sent w)), w).

(** [time.sleep(1)] *)
Definition sleep1 : M unit :=
  fun w => (tt, {| sent := sent w; slept := S (slept w) |}).

(** ** [LinkValidationResult] *)

Record LinkResult : Type := {
  r_url : string;
  r_status : string;
  r_status_code : option Z;
  r_error : option string;
  r_response_time_ms : Z;
  r_final_url : string;
  r_redirects : nat;
  r_method_used : option Method;
  r_attempt : Z
}.

(** [str(n)] for an integer. *)
Definition str_of_Z (n : Z) : string :=
  NilEmpty.string_of_int (Z.to_int n).

(** ** [EnhancedLinkValidator.validate_single_link_attempt] *)

(** The classification of a status code by the tier that produced it:
    [None] is the [continue] that escalates to the next tier. *)
Definition classify (m : Method) (code : Z) : option (string * option string) :=
  if (code <? 400)%Z then Some ("valid", None)
  else if (code =? 404)%Z then
    match m with
    | HEAD => None
    | GET => Some ("invalid", Some "Page not found (404)")
    end
  else if (code =? 403)%Z then
    match m with
    | HEAD => None
    | GET => Some ("warning", Some "Access forbidden (403) - may be bot protection")
    end
  else if (code =? 429)%Z then
    Some ("warning", Some "Rate limited (429) - try again later")
  else if (500 <=? code)%Z then
    Some ("warning",
          Some ("Server error (" ++ str_of_Z code ++ ") - temporary issue")%string)
  else
    Some ("invalid", Some ("HTTP error (" ++ str_of_Z code ++ ")")%string).

(** The loop over [methods_to_try]: [inl] is the result returned from inside
    the loop, [inr] the [last_exception] the loop ends with. *)
Fixpoint try_methods (env : Env) (u : string) (attempt : Z)
    (methods : list Method) (last_exception : option string)
  : M (LinkResult + option string) :=
  match methods with
  | [] => ret (inr last_exception)
  | m :: rest =>
      outcome <- send env m u ;;
      match outcome with
      | Value response =>
          response_time <- elapsed env ;;
          match classify m (status_code response) with
          | None => try_methods env u attempt rest last_exception
          | Some (status, error) =>
              ret (inl {| r_url := u;
                          r_status := status;
                          r_status_code := Some (status_code response);
                          r_error := error;
                          r_response_time_ms := response_time;
                          r_final_url := url response;
                          r_redirects := history response;
                          r_method_used := Some m;
                          r_attempt := attempt |})
          end
      | Raise e => try_methods env u attempt rest (Some e)
      end
  end.

(** The three results that carry no status code. *)
Definition failure (u : string) (attempt : Z) (error : string) (ms : Z)
  : LinkResult :=
  {| r_url := u;
     r_status := "invalid";
     r_status_code := None;
     r_error := Some error;
     r_response_time_ms := ms;
     r_final_url := u;
     r_redirects := 0;
     r_method_used := None;
     r_attempt := attempt |}.

(** [str(last_exception)] *)
Definition str_of_exception (e : option string) : string :=
  match e with Some msg => msg | None => "None" end.

Definition validate_single_link_attempt (env : Env) (u : string) (attempt : Z)
  : M LinkResult :=
  match urlparse env u with
  | Raise e =>
      response_time <- elapsed env ;;
      ret (failure u attempt ("Validation error: " ++ e)%string response_time)
  | Value parsed =>
      if String.eqb (scheme parsed) "" || String.eqb (netloc parsed) "" then
        ret (failure u attempt "Invalid URL format" 0%Z)
      else
        looped <- try_methods env u attempt [HEAD; GET] None ;;
        match looped with
        | inl result => ret result
        | inr last_exception =>
            response_time <- elapsed env ;;
            ret (failure u attempt
                   ("Connection failed: " ++ str_of_exception last_exception)%string
                   response_time)
        end
  end.

(** ** [EnhancedLinkValidator.validate_single_link] *)

(** [range(1, n + 1)] *)
Definition range1 (n : Z) : list Z :=
  map Z.of_nat (seq 1 (Z.to_nat n)).

(** The update of [best_result] by one attempt's result. *)
Definition keep_best (best_result : option LinkResult) (result : LinkResult)
  : option LinkResult :=
  match best_result with
  | None => Some result
  | Some best =>
      if String.eqb (r_status result) "warning"
         && String.eqb (r_status best) "invalid"
      then Some result else Some best
  end.

Fixpoint retry_loop (env : Env) (max_retries : Z) (u : string)
    (attempts : list Z) (best_result : option LinkResult)
  : M (option LinkResult) :=
  match attempts with
  | [] => ret best_result
  | attempt :: rest =>
      result <- validate_single_link_attempt env u attempt ;;
      if String.eqb (r_status result) "valid" then ret (Some result)
      else
        (if (attempt <? max_retries)%Z && String.eqb (r_status result) "invalid"
         then sleep1 else ret tt) ;;;
        retry_loop env max_retries u rest (keep_best best_result result)
  end.

Definition validate_single_link (env : Env) (max_retries : Z) (u : string)
  : M (option LinkResult) :=
  retry_loop env max_retries u (range1 max_retries) None.

(** ** [EnhancedLinkValidator.validate_links]

    The futures of one batch complete in an order the pool does not control.
    [shuffle code] is that order: it inserts each future at the position
    [code] gives for it, so every order is [shuffle code] for some [code], and
    [shuffle code l] is always a rearrangement of [l]. *)

Fixpoint insert_at {A : Type} (k : nat) (x : A) (l : list A) : list A :=
  match k, l with
  | S k', y :: rest => y :: insert_at k' x rest
  | _, _ => x :: l
  end.

Fixpoint shuffle {A : Type} (code : nat -> nat) (l : list A) : list A :=
  match l with
  | [] => []
  | x :: rest => insert_at (code (List.length rest)) x (shuffle code rest)
  end.

(** What surrounds one batch: for the [i]-th submitted task, the environment
    its retry coordinator runs in and the unexpected exception, if any, that
    escapes it; and the order of completion. *)
Record Pool : Type := {
  worker_env : nat -> Env;
  worker_fault : nat -> option string;
  completion : nat -> nat
}.

(** What [future.result()] does: return the coordinator's value or raise. *)
Inductive Future : Type :=
| Returned (result : option LinkResult)
| Failed (msg : string).

(** [executor.submit(self.validate_single_link, url)] for the [i]-th task. *)
Definition submit (pool : Pool) (max_retries : Z) (i : nat) (u : string)
  : Future :=
  match worker_fault pool i with
  | Some msg => Failed msg
  | None =>
      Returned (fst (validate_single_link (worker_env pool i) max_retries u start))
  end.

(** [future_to_url] *)
Fixpoint submit_all (pool : Pool) (max_retries : Z) (i : nat)
    (urls : list string) : list (Future * string) :=
  match urls with
  | [] => []
  | u :: rest =>
      (submit pool max_retries i u, u) :: submit_all pool max_retries (S i) rest
  end.

Definition as_completed (pool : Pool) (future_to_url : list (Future * string))
  : list (Future * string) :=
  shuffle (completion pool) future_to_url.

(** The entry appended by the [except Exception] branch. *)
Definition validation_failed (u : string) (e : string) : LinkResult :=
  failure u 1%Z ("Validation failed: " ++ e)%string 0%Z.

(** What [result["status"]] raises when [result] is [None]. *)
Definition none_not_subscriptable : string :=
  "'NoneType' object is not subscriptable".

(** The body of the collection loop for one completed future: the entries
    it appends to [results].  The value of the future is appended first;
    with [show_progress] its status is then read, which raises on [None] and
    lands in the [except] branch, appending a second entry. *)
Definition collect (show_progress : bool) (completed : Future * string)
  : list (option LinkResult) :=
  let (future, u) := completed in
  match future with
  | Returned result =>
      result ::
      match show_progress, result with
      | true, None => [Some (validation_failed u none_not_subscriptable)]
      | _, _ => []
      end
  | Failed e => [Some (validation_failed u e)]
  end.

(** A call of [validate_links]: the [results] it returns and the number of
    tasks it submitted to the executor. *)
Record PoolRun : Type := {
  results : list (option LinkResult);
  spawned : nat
}.

Definition validate_links (pool : Pool) (max_retries : Z)
    (urls : list string) (show_progress : bool) : PoolRun :=
  match urls with
  | [] => {| results := []; spawned := 0 |}
  | _ =>
      let future_to_url := submit_all pool max_retries 0 urls in
      {| results := flat_map (collect show_progress)
                      (as_completed pool future_to_url);
         spawned := List.length future_to_url |}
  end.

(** ** The session model of [multi_prompt_evaluator.py] *)

Record TestQuestion : Type := {
  q_id : string;
  q_question : string;
  q_category : string
}.

Record PromptVersion : Type := {
  pv_id : string;
  pv_name : string;
  pv_description : string;
  pv_version : string
}.

(** One entry of [get_results_for_dashboard]. *)
Record ApiResponse : Type := {
  a_id : string;
  a_question : string;
  a_response : string;
  a_response_time_ms : Z;
  a_status : string
}.

(** [link_validation_summary] *)
Record LinkSummary : Type := {
  total_links : nat;
  valid_links : nat;
  warning_links : nat;
  invalid_links : nat;
  questions_with_invalid_links : nat
}.

(** One entry of [detailed_results] (the category, complexity and persona
    looked up from the questions are left out). *)
Record Detail : Type := {
  d_question_id : string;
  d_response : string;
  d_response_time_ms : Z;
  d_links_found : nat;
  d_links_valid : nat;
  d_links_warning : nat;
  d_links_invalid : nat;
  d_link_validation_results : list (option LinkResult);
  d_extracted_links : list string
}.

Record Performance : Type := {
  avg_response_time_ms : Q;
  successful_responses : nat;
  failed_responses : nat
}.

(** The [evaluation_result] of one prompt version (its timestamp is left
    out). *)
Record Evaluation : Type := {
  e_prompt_version : PromptVersion;
  e_session_id : string;
  e_test_name : string;
  e_total_questions : nat;
  e_api_results : list ApiResponse;
  e_detailed_results : list Detail;
  e_link_validation_summary : LinkSummary;
  e_performance_metrics : Performance
}.

(** A [dict] keyed by strings, in insertion order. *)
Definition Dict (V : Type) : Type := list (string * V).

Fixpoint dict_get {V : Type} (d : Dict V) (k : string) : option V :=
  match d with
  | [] => None
  | (k', v) :: rest => if String.eqb k k' then Some v else dict_get rest k
  end.

(** [d[k] = v]: a key already present keeps its place. *)
Fixpoint dict_set {V : Type} (d : Dict V) (k : string) (v : V) : Dict V :=
  match d with
  | [] => [(k, v)]
  | (k', v') :: rest =>
      if String.eqb k k' then (k, v) :: rest else (k', v') :: dict_set rest k v
  end.

Record EvaluationSession : Type := {
  s_id : string;
  s_name : string;
  s_description : string;
  s_test_questions : list TestQuestion;
  s_prompt_versions : list PromptVersion;
  s_results : Dict Evaluation
}.

(** ** [MultiPromptEvaluator.run_single_prompt_evaluation] *)

(** [MultiPromptEvaluator.__init__] builds [EnhancedLinkValidator()] with its
    defaults, so the evaluator's validator has [max_retries = 2]. *)
Definition link_validator_max_retries : Z := 2.

Definition and_then {A B : Type} (c : Raises A) (k : A -> Raises B) : Raises B :=
  match c with
  | Value a => k a
  | Raise e => Raise e
  end.

(** [[link for link in link_results if link["status"] == status]]: reading
    the status of a [None] entry raises. *)
Fixpoint with_status (status : string) (link_results : list (option LinkResult))
  : Raises (list LinkResult) :=
  match link_results with
  | [] => Value []
  | None :: _ => Raise none_not_subscriptable
  | Some link :: rest =>
      and_then (with_status status rest) (fun kept =>
        Value (if String.eqb (r_status link) status then link :: kept else kept))
  end.

(** What the API client and the store give one prompt version's run: the
    session id of [run_test_suite], the entries of
    [get_results_for_dashboard], and the pool of each response's batch. *)
Record Suite : Type := {
  suite_session_id : option string;
  suite_responses : list ApiResponse;
  suite_pool : nat -> Pool
}.

(** [not session_id] *)
Definition falsy (session_id : option string) : bool :=
  match session_id with
  | None => true
  | Some s => String.eqb s ""
  end.

Definition empty_summary : LinkSummary :=
  {| total_links := 0; valid_links := 0; warning_links := 0;
     invalid_links := 0; questions_with_invalid_links := 0 |}.

(** The loop over [api_responses], from the [i]-th one on. *)
Fixpoint validation_loop (suite : Suite) (i : nat)
    (api_responses : list ApiResponse)
    (summary : LinkSummary) (detailed_results : list Detail)
  : Raises (LinkSummary * list Detail) :=
  match api_responses with
  | [] => Value (summary, detailed_results)
  | response :: rest =>
      let extracted_links := extract_links (a_response response) in
      let link_results :=
        match extracted_links with
        | [] => []
        | _ => results (validate_links (suite_pool suite i)
                          link_validator_max_retries extracted_links false)
        end in
      and_then (with_status "valid" link_results) (fun valid =>
      and_then (with_status "warning" link_results) (fun warning =>
      and_then (with_status "invalid" link_results) (fun invalid =>
        let summary' :=
          {| total_links := total_links summary + List.length extracted_links;
             valid_links := valid_links summary + List.length valid;
             warning_links := warning_links summary + List.length warning;
             invalid_links := invalid_links summary + List.length invalid;
             questions_with_invalid_links :=
               if (0 <? List.length invalid)%nat
               then questions_with_invalid_links summary + 1
               else questions_with_invalid_links summary |} in
        let result :=
          {| d_question_id := a_id response;
             d_response := a_response response;
             d_response_time_ms := a_response_time_ms response;
             d_links_found := List.length extracted_links;
             d_links_valid := List.length valid;
             d_links_warning := List.length warning;
             d_links_invalid := List.length invalid;
             d_link_validation_results := link_results;
             d_extracted_links := extracted_links |} in
        validation_loop suite (S i) rest summary' (detailed_results ++ [result]))))
  end.

(** [sum(r["response_time_ms"] for r in detailed_results)] *)
Definition total_response_time (detailed_results : list Detail) : Z :=
  fold_left (fun acc r => (acc + d_response_time_ms r)%Z) detailed_results 0%Z.

(** [a / b] on numbers: a zero divisor raises [ZeroDivisionError]. *)
Definition true_div (a b : Q) : Raises Q :=
  if Qeq_bool b 0 then Raise "division by zero" else Value (a / b)%Q.

(** [sum(...) / len(detailed_results) if detailed_results else 0] *)
Definition average_response_time (detailed_results : list Detail) : Raises Q :=
  match detailed_results with
  | [] => Value 0%Q
  | _ => true_div (inject_Z (total_response_time detailed_results))
           (inject_Z (Z.of_nat (List.length detailed_results)))
  end.

Definition count_status (success : bool) (api_responses : list ApiResponse) : nat :=
  List.length
    (filter (fun r => Bool.eqb (String.eqb (a_status r) "success") success)
       api_responses).

Definition run_single_prompt_evaluation (session_name : string)
    (prompt_version : PromptVersion) (questions : list TestQuestion)
    (suite : Suite) : Raises (option Evaluation) :=
  let test_name := (session_name ++ " - " ++ pv_name prompt_version)%string in
  if falsy (suite_session_id suite) then Value None
  else
    let session_id :=
      match suite_session_id suite with Some s => s | None => "" end in
    let api_responses := suite_responses suite in
    and_then (validation_loop suite 0 api_responses empty_summary [])
      (fun '(link_validation_summary, detailed_results) =>
         and_then (average_response_time detailed_results) (fun average =>
           Value (Some
             {| e_prompt_version := prompt_version;
                e_session_id := session_id;
                e_test_name := test_name;
                e_total_questions := List.length questions;
                e_api_results := api_responses;
                e_detailed_results := detailed_results;
                e_link_validation_summary := link_validation_summary;
                e_performance_metrics :=
                  {| avg_response_time_ms := average;
                     successful_responses := count_status true api_responses;
                     failed_responses := count_status false api_responses |} |}))).

(** ** The human gate: [MultiPromptEvaluator.wait_for_prompt_change] *)

(** The characters [str.strip] removes: the controls 9 to 13 and 28 to 31,
    the space, the next-line control 133 and the no-break space 160. *)
Definition is_space (c : ascii) : bool :=
  let n := nat_of_ascii c in
  ((9 <=? n)%nat && (n <=? 13)%nat) || ((28 <=? n)%nat && (n <=? 32)%nat)
  || (n =? 133)%nat || (n =? 160)%nat.

Fixpoint lstrip (s : string) : string :=
  match s with
  | EmptyString => EmptyString
  | String c rest => if is_space c then lstrip rest else s
  end.

Fixpoint rstrip (s : string) : string :=
  match s with
  | EmptyString => EmptyString
  | String c rest =>
      match rstrip rest with
      | EmptyString => if is_space c then EmptyString else String c EmptyString
      | kept => String c kept
      end
  end.

Definition strip (s : string) : string := rstrip (lstrip s).

(** How a call of the gate ends: it returns a boolean, or [sys.exit(0)]
    raises [SystemExit], or [input] raises [EOFError] at the end of the
    console's input. *)
Inductive Gate : Type :=
| Answer (should_continue : bool)
| SystemExit (code : Z)
| EOFError.

(** The [while True] loop over the lines the operator types; it returns the
    lines left unread as well. *)
Fixpoint wait_for_prompt_change (console : list string) : Gate * list string :=
  match console with
  | [] => (EOFError, [])
  | line :: rest =>
      let user_input := str_lower (strip line) in
      if String.eqb user_input "" then (Answer true, rest)
      else if String.eqb user_input "skip" then (Answer false, rest)
      else if String.eqb user_input "quit" then (SystemExit 0, rest)
      else wait_for_prompt_change rest
  end.

(** ** [MultiPromptEvaluator.run_multi_prompt_evaluation] *)

(** The evaluator's own state. *)
Record Evaluator : Type := {
  current_session : option EvaluationSession;
  results_by_prompt : Dict Evaluation
}.

(** What surrounds one run of the orchestrator: the answer of the
    connectivity probe, the lines the operator will type, and what the API
    client and the store give for the [i]-th prompt version (from 0). *)
Record Stage : Type := {
  api_connection : bool;
  console : list string;
  suites : nat -> Suite
}.

(** How the loop over the prompt versions ends, with the local [all_results]
    and the session as they are at that moment. *)
Inductive LoopEnd : Type :=
| Completed (all_results : Dict Evaluation) (session : EvaluationSession)
| Exited (code : Z) (all_results : Dict Evaluation) (session : EvaluationSession)
| Raised (msg : string) (all_results : Dict Evaluation) (session : EvaluationSession).

(** [self.current_session.prompt_versions.append(prompt_version)] *)
Definition append_version (session : EvaluationSession) (pv : PromptVersion)
  : EvaluationSession :=
  {| s_id := s_id session;
     s_name := s_name session;
     s_description := s_description session;
     s_test_questions := s_test_questions session;
     s_prompt_versions := s_prompt_versions session ++ [pv];
     s_results := s_results session |}.

(** [self.current_session.results = all_results] *)
Definition store_results (session : EvaluationSession)
    (all_results : Dict Evaluation) : EvaluationSession :=
  {| s_id := s_id session;
     s_name := s_name session;
     s_description := s_description session;
     s_test_questions := s_test_questions session;
     s_prompt_versions := s_prompt_versions session;
     s_results := all_results |}.

(** The loop over [prompt_versions], from the [i]-th version (from 0) on. *)
Fixpoint prompt_loop (stage_suites : nat -> Suite)
    (questions : list TestQuestion) (i : nat)
    (prompt_versions : list PromptVersion) (lines : list string)
    (session : EvaluationSession) (all_results : Dict Evaluation) : LoopEnd :=
  match prompt_versions with
  | [] => Completed all_results session
  | prompt_version :: rest =>
      match wait_for_prompt_change lines with
      | (SystemExit code, _) => Exited code all_results session
      | (EOFError, _) => Raised "EOF when reading a line" all_results session
      | (Answer false, lines') =>
          prompt_loop stage_suites questions (S i) rest lines' session all_results
      | (Answer true, lines') =>
          let session' := append_version session prompt_version in
          match run_single_prompt_evaluation (s_name session') prompt_version
                  questions (stage_suites i) with
          | Raise e => Raised e all_results session'
          | Value (Some result) =>
              prompt_loop stage_suites questions (S i) rest lines' session'
                (dict_set all_results (pv_id prompt_version) result)
          | Value None =>
              prompt_loop stage_suites questions (S i) rest lines' session'
                all_results
          end
      end
  end.

(** How a call of [run_multi_prompt_evaluation] ends: it returns
    [all_results] or [None]; or [SystemExit] leaves it, the local
    [all_results] of that moment being given for reference; or an exception
    does. *)
Inductive Outcome : Type :=
| Returns (value : option (Dict Evaluation)) (evaluator : Evaluator)
| Exits (code : Z) (all_results : Dict Evaluation) (evaluator : Evaluator)
| Throws (msg : string) (evaluator : Evaluator).

Definition with_session (evaluator : Evaluator) (session : EvaluationSession)
  : Evaluator :=
  {| current_session := Some session;
     results_by_prompt := results_by_prompt evaluator |}.

Definition run_multi_prompt_evaluation (evaluator : Evaluator) (stage : Stage)
    (prompt_versions : list PromptVersion)
    (questions : option (list TestQuestion)) : Outcome :=
  match current_session evaluator with
  | None =>
      Throws "No evaluation session created. Call create_evaluation_session first."
        evaluator
  | Some session =>
      let questions :=
        match questions with
        | None => s_test_questions session
        | Some qs => qs
        end in
      if negb (api_connection stage) then Returns None evaluator
      else
        match prompt_loop (suites stage) questions 0 prompt_versions
                (console stage) session [] with
        | Completed all_results session' =>
            Returns (Some all_results)
              {| current_session := Some (store_results session' all_results);
                 results_by_prompt := all_results |}
        | Exited code all_results session' =>
            Exits code all_results (with_session evaluator session')
        | Raised e _ session' => Throws e (with_session evaluator session')
        end
  end.

(** [MultiPromptEvaluator.create_evaluation_session] (the id and the
    creation time are given). *)
Definition create_evaluation_session (evaluator : Evaluator)
    (id name description : string) (test_questions : list TestQuestion)
  : Evaluator :=
  {| current_session :=
       Some {| s_id := id; s_name := name; s_description := description;
               s_test_questions := test_questions;
               s_prompt_versions := []; s_results := [] |};
     results_by_prompt := results_by_prompt evaluator |}.

(** ** [MultiPromptEvaluator.generate_comparison_summary] *)

(** [overall_metrics] (the table [prompt_comparison] of rounded figures is
    left out). *)
Record Summary : Type := {
  total_prompts : nat;
  total_questions_per_prompt : nat;
  best_prompt_for_links : option string;
  best_prompt_for_response_time : option string
}.

(** [link_success_rate] of one result; the division is reached with a
    positive divisor only. *)
Definition link_success_rate (link_summary : LinkSummary) : Q :=
  if (0 <? total_links link_summary)%nat then
    (inject_Z (Z.of_nat (valid_links link_summary + warning_links link_summary))
     / inject_Z (Z.of_nat (total_links link_summary)) * 100)%Q
  else 100%Q.

(** [a > b] and [a < b] on numbers. *)
Definition Qgtb (a b : Q) : bool := negb (Qle_bool a b).
Definition Qltb (a b : Q) : bool := negb (Qle_bool b a).

(** The running bests of the scan; [None] as [best_response_time] is
    [float('inf')]. *)
Record Bests : Type := {
  best_link_score : Q;
  best_response_time : option Q;
  best_for_links : option string;
  best_for_response_time : option string
}.

Definition initial_bests : Bests :=
  {| best_link_score := (-1)%Q; best_response_time := None;
     best_for_links := None; best_for_response_time := None |}.

(** The body of the loop over [results.items()] for one entry. *)
Definition compare_one (b : Bests) (result : Evaluation) : Bests :=
  let prompt_name := pv_name (e_prompt_version result) in
  let rate := link_success_rate (e_link_validation_summary result) in
  let avg := avg_response_time_ms (e_performance_metrics result) in
  let links_better := Qgtb rate (best_link_score b) in
  let time_better :=
    match best_response_time b with
    | None => true
    | Some t => Qltb avg t
    end in
  {| best_link_score := if links_better then rate else best_link_score b;
     best_response_time := if time_better then Some avg else best_response_time b;
     best_for_links := if links_better then Some prompt_name else best_for_links b;
     best_for_response_time :=
       if time_better then Some prompt_name else best_for_response_time b |}.

Definition compare_all (items : Dict Evaluation) (b : Bests) : Bests :=
  fold_left (fun acc item => compare_one acc (snd item)) items b.

(** [None] is the empty dict returned when there is no session or no
    result. *)
Definition generate_comparison_summary (evaluator : Evaluator) : option Summary :=
  match current_session evaluator with
  | None => None
  | Some session =>
      match s_results session with
      | [] => None
      | items =>
          let b := compare_all items initial_bests in
          Some {| total_prompts := List.length items;
                  total_questions_per_prompt :=
                    List.length (s_test_questions session);
                  best_prompt_for_links := best_for_links b;
                  best_prompt_for_response_time := best_for_response_time b |}
      end
  end.

(** ** Notions the properties are stated with *)

(** The matches of both patterns in [text], each with its offset. *)
Definition occurrences (text : string) : list (nat * string) :=
  flat_map (fun pattern => finditer pattern text) patterns.

Definition cleans_to (link : string) (m : string) : bool :=
  match clean_link m with
  | Some l => String.eqb l link
  | None => false
  end.

(** The offset in [text] at which the URL [link] is first seen: the least
    offset of a match, of either pattern, that cleans to [link]. *)
Definition first_seen (text link : string) : option nat :=
  match map fst (filter (fun om => cleans_to link (snd om)) (occurrences text)) with
  | [] => None
  | p :: ps => Some (fold_left Nat.min ps p)
  end.

(** [a] stands before [b] in [l]. *)
Definition before (l : list string) (a b : string) : Prop :=
  exists i j, i < j /\ nth_error l i = Some a /\ nth_error l j = Some b.

(** The returned URLs stand in the order in which the text first shows
    them. *)
Definition in_text_order (text : string) : Prop :=
  forall a b, before (extract_links text) a b ->
    exists p q, first_seen text a = Some p /\ first_seen text b = Some q /\ p < q.

(** The index of the first occurrence of [x] in [l]. *)
Fixpoint first_index (x : string) (l : list string) : option nat :=
  match l with
  | [] => None
  | y :: rest =>
      if String.eqb x y then Some 0 else option_map S (first_index x rest)
  end.

(** The returned URLs stand in the order in which the list of candidates
    first shows them. *)
Definition in_candidate_order (text : string) : Prop :=
  forall a b, before (extract_links text) a b ->
    exists p q,
      first_index a (cleaned_links (all_links text)) = Some p /\
      first_index b (cleaned_links (all_links text)) = Some q /\ p < q.

(** [s[n:]] *)
Fixpoint drop (n : nat) (s : string) : string :=
  match n, s with
  | S k, String _ rest => drop k rest
  | _, _ => s
  end.

(** The match [b] starts to the right of the start of [a], and not before
    the end of [a]. *)
Definition starts_after (a b : nat * string) : Prop :=
  fst a < fst b /\ fst a + String.length (snd a) <= fst b.

(** [l] lists the matches of [r] in [text] in text order, that is from left
    to right without overlap: the offsets increase and no match starts
    before the one listed before it ends; each entry is the match of [r]
    that starts at its offset, and is the text found there; and a match
    that is not listed starts strictly inside a listed one. *)
Definition leftmost_matches (r : regex) (text : string)
    (l : list (nat * string)) : Prop :=
  StronglySorted starts_after l /\
  (forall p m, In (p, m) l ->
     p <= String.length text /\
     match_at r (drop p text) = Some m /\
     startswith m (drop p text) = true) /\
  (forall p m, p <= String.length text -> match_at r (drop p text) = Some m ->
     In (p, m) l \/
     exists q m', In (q, m') l /\ q < p /\ p < q + String.length m').

(** The offset of the first entry of [occ] whose match cleans to [link]. *)
Definition first_clean (link : string) (occ : list (nat * string)) : option nat :=
  match filter (fun om => cleans_to link (snd om)) occ with
  | [] => None
  | (p, _) :: _ => Some p
  end.

(** The offset in [text] of the first match of the pattern [r] that cleans
    to [link]. *)
Definition first_offset (r : regex) (text link : string) : option nat :=
  first_clean link (finditer r text).

(** [a] stands before [b] going by pattern first and by text offset within
    one pattern: a URL that a match of the scheme-prefixed pattern gives
    stands before one that only the www-prefixed pattern gives; two URLs
    given by the scheme-prefixed pattern stand in the order of the offsets
    of their first such matches; and so do, by their first matches of the
    www-prefixed pattern, two URLs that only this pattern gives. *)
Definition pattern_then_offset (text a b : string) : Prop :=
  match first_offset scheme_pattern text a, first_offset scheme_pattern text b with
  | Some p, Some q => p < q
  | Some _, None => first_offset www_pattern text b <> None
  | None, Some _ => False
  | None, None =>
      match first_offset www_pattern text a, first_offset www_pattern text b with
      | Some p, Some q => p < q
      | _, _ => False
      end
  end.

(** A text formed from a list of links: the links separated by a space. *)
Definition text_of (links : list string) : string := String.concat " " links.

(** The classification table of the specification. *)
Definition table (code : Z) : string :=
  if (code <? 400)%Z then "valid"
  else if (code =? 404)%Z then "invalid"
  else if (code =? 403)%Z || (code =? 429)%Z || (500 <=? code)%Z then "warning"
  else "invalid".

Definition table_codes : list Z := [200; 301; 403; 404; 429; 500; 503]%Z.

(** The ranking valid > warning > invalid. *)
Definition rank (status : string) : nat :=
  if String.eqb status "valid" then 2
  else if String.eqb status "warning" then 1
  else 0.

(** The results of the attempts [retry_loop] makes, in order. *)
Fixpoint attempts_made (env : Env) (max_retries : Z) (u : string)
    (attempts : list Z) (w : World) : list LinkResult :=
  match attempts with
  | [] => []
  | attempt :: rest =>
      let (result, w1) := validate_single_link_attempt env u attempt w in
      result ::
      if String.eqb (r_status result) "valid" then []
      else
        let w2 :=
          if (attempt <? max_retries)%Z && String.eqb (r_status result) "invalid"
          then snd (sleep1 w1) else w1 in
        attempts_made env max_retries u rest w2
  end.

(** The entry of the [i]-th URL of a batch: what its own worker gives. *)
Definition entry_of (pool : Pool) (max_retries : Z) (i : nat) (u : string)
  : option LinkResult :=
  match worker_fault pool i with
  | Some e => Some (validation_failed u e)
  | None => fst (validate_single_link (worker_env pool i) max_retries u start)
  end.

(** The rate of the entry at index [i] of a results dict. *)
Definition rate_at (items : Dict Evaluation) (i : nat) : option Q :=
  option_map (fun item => link_success_rate (e_link_validation_summary (snd item)))
    (nth_error items i).

Definition name_at (items : Dict Evaluation) (i : nat) : option string :=
  option_map (fun item => pv_name (e_prompt_version (snd item)))
    (nth_error items i).

(** The share of the valid and warning links among all links, as a
    percentage. *)
Definition percentage (s : LinkSummary) : Q :=
  (100 * inject_Z (Z.of_nat (valid_links s + warning_links s))
   / inject_Z (Z.of_nat (total_links s)))%Q.

(** A line the gate does not recognise: stripped and lowered it is neither
    empty nor one of the two words. *)
Definition unrecognised (line : string) : Prop :=
  str_lower (strip line) <> "" /\
  str_lower (strip line) <> "skip" /\
  str_lower (strip line) <> "quit".

(** The attempt is settled by the malformed-URL check: it returns the
    result of that check and leaves the world as it was (no request sent,
    no time read). *)
Definition short_circuited (env : Env) (u : string) (attempt : Z) (w : World)
  : Prop :=
  validate_single_link_attempt env u attempt w
  = (failure u attempt "Invalid URL format" 0%Z, w).

(** The outcome of the HEAD tier passes the attempt on to the GET tier. *)
Definition escalates (head : Raises Response) : Prop :=
  match head with
  | Value response => status_code response = 403%Z \/ status_code response = 404%Z
  | Raise _ => True
  end.

(** The entries of a batch in the order of submission, from task [i] on. *)
Fixpoint entries_from (pool : Pool) (max_retries : Z) (i : nat)
    (urls : list string) : list (option LinkResult) :=
  match urls with
  | [] => []
  | u :: rest =>
      entry_of pool max_retries i u :: entries_from pool max_retries (S i) rest
  end.

(** An entry of [results] that is a result with one of the three statuses. *)
Definition classified (entry : option LinkResult) : Prop :=
  exists r, entry = Some r /\
    (r_status r = "valid" \/ r_status r = "warning" \/ r_status r = "invalid").

(** The invariant of a [link_validation_summary]. *)
Definition total_is_sum (s : LinkSummary) : Prop :=
  total_links s = valid_links s + warning_links s + invalid_links s.

(** ** Scripted surroundings, to run the model on examples *)

(** An environment whose parser gives [parsed] and whose requests give
    [outcomes] in turn (a refused connection once they are used up); the
    clock advances 10 ms per request. *)
Definition scripted (parsed : Raises ParseResult) (outcomes : list (Raises Response))
  : Env :=
  {| urlparse := fun _ => parsed;
     request := fun n _ _ => nth n outcomes (Raise "Connection refused");
     clock_ms := fun n => (Z.of_nat n * 10)%Z |}.

Definition responds (code : Z) (u : string) : Raises Response :=
  Value {| status_code := code; url := u; history := 0 |}.

Definition https_host (host : string) : Raises ParseResult :=
  Value {| scheme := "https"; netloc := host |}.

(** [urlparse] of [mailto:someone@example.com]: a scheme and no host. *)
Definition mailto_parsed : Raises ParseResult :=
  Value {| scheme := "mailto"; netloc := "" |}.

Definition example_url : string := "https://example.com".

(** A pool whose every worker sees the same scripted environment and no
    unexpected exception, completing in the order of submission. *)
Definition calm_pool (outcomes : list (Raises Response)) : Pool :=
  {| worker_env := fun _ => scripted (https_host "example.com") outcomes;
     worker_fault := fun _ => None;
     completion := fun _ => 0 |}.

(** A pool whose second task raises, completing in reverse order. *)
Definition faulty_pool : Pool :=
  {| worker_env := fun _ => scripted (https_host "example.com")
                              [responds 200 example_url];
     worker_fault := fun i => if (i =? 1)%nat then Some "boom" else None;
     completion := fun n => n |}.

Definition example_suite (texts : list string) : Suite :=
  {| suite_session_id := Some "run-1";
     suite_responses :=
       map (fun t => {| a_id := "Q001"; a_question := "Where?";
                        a_response := t; a_response_time_ms := 120;
                        a_status := "success" |}) texts;
     suite_pool := fun _ => calm_pool [responds 200 example_url] |}.

Definition prompt_v1 : PromptVersion :=
  {| pv_id := "prompt_v1"; pv_name := "Baseline Prompt (Current)";
     pv_description := "Current production prompt"; pv_version := "1.0" |}.

Definition prompt_v2 : PromptVersion :=
  {| pv_id := "prompt_v2"; pv_name := "Enhanced Prompt (Test)";
     pv_description := "Modified prompt with improvements"; pv_version := "2.0" |}.

Definition example_questions : list TestQuestion :=
  [{| q_id := "Q001"; q_question := "Where?"; q_category := "general" |}].

Definition fresh_evaluator : Evaluator :=
  create_evaluation_session
    {| current_session := None; results_by_prompt := [] |}
    "session-1" "Multi-Prompt Evaluation" "Comparative evaluation"
    example_questions.

(** An evaluation with given link counts and average response time. *)
Definition example_evaluation (pv : PromptVersion) (total valid warning invalid : nat)
    (avg : Q) : Evaluation :=
  {| e_prompt_version := pv;
     e_session_id := "run-1";
     e_test_name := pv_name pv;
     e_total_questions := 1;
     e_api_results := [];
     e_detailed_results := [];
     e_link_validation_summary :=
       {| total_links := total; valid_links := valid;
          warning_links := warning; invalid_links := invalid;
          questions_with_invalid_links := 0 |};
     e_performance_metrics :=
       {| avg_response_time_ms := avg; successful_responses := 1;
          failed_responses := 0 |} |}.

(** A finished session in which both versions reach 100%: the first with
    one valid link out of one, the second with no link at all. *)
Definition tied_evaluator : Evaluator :=
  {| current_session :=
       Some {| s_id := "session-1"; s_name := "Multi-Prompt Evaluation";
               s_description := "Comparative evaluation";
               s_test_questions := example_questions;
               s_prompt_versions := [prompt_v1; prompt_v2];
               s_results :=
                 [("prompt_v1", example_evaluation prompt_v1 1 1 0 0 120%Q);
                  ("prompt_v2", example_evaluation prompt_v2 0 0 0 0 90%Q)] |};
     results_by_prompt := [] |}.

(** The operator lets the first version run and quits at the second gate. *)
Definition quit_at_second_gate : Stage :=
  {| api_connection := true;
     console := [""; "quit"];
     suites := fun _ => example_suite ["See https://example.com."] |}.

(** * Properties *)

(** ** The link extractor *)

Lemma in_seen_true (link : string) (seen : list string) :
  in_seen link seen = true <-> In link seen.
Proof.
  unfold in_seen. rewrite existsb_exists. split.
  - intros [x [Hin Heq]]. apply String.eqb_eq in Heq. now subst.
  - intros Hin. exists link. split; [assumption | apply String.eqb_refl].
Qed.

Lemma in_seen_false (link : string) (seen : list string) :
  in_seen link seen = false <-> ~ In link seen.
Proof.
  rewrite <- in_seen_true. destruct (in_seen link seen).
  - split; [discriminate | intros H; exfalso; now apply H].
  - split; [intros _ H; discriminate | reflexivity].
Qed.

(** What the deduplication loop keeps: the links that are not yet seen. *)
Lemma unique_links_In (links seen : list string) (x : string) :
  In x (unique_links seen links) <-> In x links /\ ~ In x seen.
Proof.
  revert seen. induction links as [| link rest IH]; intros seen; simpl.
  - tauto.
  - destruct (in_seen link seen) eqn:E.
    + apply in_seen_true in E. rewrite IH. split.
      * intros [H1 H2]. split; [now right | assumption].
      * intros [[H1 | H1] H2]; [subst; contradiction | now split].
    + apply in_seen_false in E. simpl. rewrite IH. simpl. split.
      * intros [H | [H1 H2]]; [subst; split; [now left | assumption] |].
        split; [now right | tauto].
      * intros [[H1 | H1] H2]; [now left |].
        destruct (string_dec link x) as [-> | Hne]; [now left |].
        right. split; [assumption |]. intros [H | H]; [congruence | tauto].
Qed.

Lemma unique_links_NoDup (links seen : list string) :
  NoDup (unique_links seen links).
Proof.
  revert seen. induction links as [| link rest IH]; intros seen; simpl.
  - constructor.
  - destruct (in_seen link seen) eqn:E; [apply IH |].
    constructor; [| apply IH].
    rewrite unique_links_In. intros [_ H]. apply H. now left.
Qed.

Lemma first_index_In (x : string) (l : list string) :
  In x l -> exists p, first_index x l = Some p.
Proof.
  induction l as [| y rest IH]; simpl; [tauto |].
  intros H. destruct (String.eqb x y) eqn:E; [now exists 0 |].
  apply String.eqb_neq in E.
  destruct H as [H | H]; [congruence |].
  destruct (IH H) as [p Hp]. exists (S p). now rewrite Hp.
Qed.

Lemma first_index_skip (x y : string) (rest : list string) (p : nat) :
  x <> y -> first_index x rest = Some p -> first_index x (y :: rest) = Some (S p).
Proof.
  intros Hne Hp. simpl. apply String.eqb_neq in Hne. now rewrite Hne, Hp.
Qed.

(** The deduplication loop keeps the order of first occurrence. *)
Lemma unique_links_order (links seen : list string) (a b : string) :
  before (unique_links seen links) a b ->
  exists p q,
    first_index a links = Some p /\ first_index b links = Some q /\ p < q.
Proof.
  revert seen. induction links as [| link rest IH]; intros seen; simpl.
  - intros (i & j & _ & Hi & _). destruct i; discriminate.
  - destruct (in_seen link seen) eqn:E.
    + intros Hb. apply in_seen_true in E.
      assert (Ha : In a (unique_links seen rest)).
      { destruct Hb as (i & j & _ & Hi & _). eapply nth_error_In; eauto. }
      assert (Hb' : In b (unique_links seen rest)).
      { destruct Hb as (i & j & _ & _ & Hj). eapply nth_error_In; eauto. }
      apply unique_links_In in Ha, Hb'.
      destruct (IH seen Hb) as (p & q & Hp & Hq & Hlt).
      exists (S p), (S q). repeat split; [| | lia].
      * fold (first_index a (link :: rest)). apply first_index_skip; [| assumption].
        intros ->. tauto.
      * fold (first_index b (link :: rest)). apply first_index_skip; [| assumption].
        intros ->. tauto.
    + intros (i & j & Hij & Hi & Hj).
      destruct j as [| j]; [lia |]. simpl in Hj.
      assert (Hb' : In b (unique_links (link :: seen) rest))
        by (eapply nth_error_In; eauto).
      apply unique_links_In in Hb'. destruct Hb' as [Hb1 Hb2].
      assert (Hbne : b <> link) by (intros ->; apply Hb2; now left).
      destruct i as [| i].
      * simpl in Hi. injection Hi as <-.
        destruct (first_index_In b rest Hb1) as [q Hq].
        exists 0, (S q). repeat split; [| | lia].
        -- now rewrite String.eqb_refl.
        -- apply String.eqb_neq in Hbne. now rewrite Hbne, Hq.
      * simpl in Hi.
        assert (Ha' : In a (unique_links (link :: seen) rest))
          by (eapply nth_error_In; eauto).
        apply unique_links_In in Ha'. destruct Ha' as [Ha1 Ha2].
        assert (Hane : a <> link) by (intros ->; apply Ha2; now left).
        destruct (IH (link :: seen)) as (p & q & Hp & Hq & Hlt).
        { exists i, j. repeat split; [lia | assumption | assumption]. }
        exists (S p), (S q). repeat split; [| | lia].
        -- apply String.eqb_neq in Hane. now rewrite Hane, Hp.
        -- apply String.eqb_neq in Hbne. now rewrite Hbne, Hq.
Qed.

(** *** The matches stand in text order *)

Ltac splits := repeat match goal with |- _ /\ _ => split end.

Lemma take_prefix (n : nat) (s : string) : startswith (take n s) s = true.
Proof.
  unfold startswith. revert n.
  induction s as [| c rest IH]; intros [| n]; simpl; try reflexivity.
  destruct (ascii_dec c c) as [_ | Hne]; [apply IH | now destruct Hne].
Qed.

(** A match found at the beginning of [s] is a prefix of [s]. *)
Lemma match_at_prefix (r : regex) (s m : string) :
  match_at r s = Some m -> startswith m s = true.
Proof.
  unfold match_at. destruct (run r s) as [| rest more]; [discriminate |].
  intros [= <-]. apply take_prefix.
Qed.

(** What [scan] lists from offset [pos] on, [skip] characters being passed
    over first. *)
Lemma scan_spec (r : regex) (s : string) (skip pos : nat) :
  StronglySorted starts_after (scan r skip pos s) /\
  (forall p m, In (p, m) (scan r skip pos s) ->
     exists k, p = pos + k /\ skip <= k /\ k <= String.length s /\
               match_at r (drop k s) = Some m) /\
  (forall k m, skip <= k -> k <= String.length s ->
     match_at r (drop k s) = Some m ->
     In (pos + k, m) (scan r skip pos s) \/
     exists q m', In (q, m') (scan r skip pos s) /\
                  q < pos + k /\ pos + k < q + String.length m').
Proof.
  revert skip pos. induction s as [| c rest IH]; intros skip pos.
  - simpl. destruct skip as [| skip].
    + destruct (match_at r "") as [m0 |] eqn:E.
      * split; [repeat constructor | split].
        -- intros p m [[= <- <-] | []]. exists 0.
           splits; try lia; exact E.
        -- intros k m _ Hk Hm. assert (k = 0) by lia. subst k.
           simpl in Hm. rewrite E in Hm. injection Hm as <-.
           left. left. f_equal. lia.
      * split; [constructor | split].
        -- intros p m [].
        -- intros k m _ Hk Hm. assert (k = 0) by lia. subst k.
           simpl in Hm. congruence.
    + split; [constructor | split].
      * intros p m [].
      * intros k m Hsk Hk. lia.
  - destruct skip as [| skip]; simpl.
    + destruct (match_at r (String c rest)) as [m0 |] eqn:E.
      * destruct (IH (String.length m0 - 1) (S pos)) as (Hs & Hin & Hall).
        split; [| split].
        -- constructor; [exact Hs |]. apply Forall_forall. intros [p m] Hpm.
           destruct (Hin p m Hpm) as (k & -> & Hk & _ & _).
           unfold starts_after. simpl. lia.
        -- intros p m [[= <- <-] | Hpm].
           ++ exists 0. splits; try lia; exact E.
           ++ destruct (Hin p m Hpm) as (k & -> & _ & Hk & Hm).
              exists (S k). splits; try lia; exact Hm.
        -- intros k m _ Hk Hm. destruct k as [| k].
           ++ simpl in Hm. rewrite E in Hm. injection Hm as <-.
              left. left. f_equal. lia.
           ++ simpl in Hm.
              destruct (le_lt_dec (String.length m0 - 1) k) as [Hge | Hlt].
              ** destruct (Hall k m Hge ltac:(lia) Hm)
                   as [Hhere | (q & m' & Hq & Hlo & Hhi)].
                 --- left. right.
                     now replace (pos + S k) with (S pos + k) by lia.
                 --- right. exists q, m'. split; [now right | lia].
              ** right. exists pos, m0. split; [now left | simpl; lia].
      * destruct (IH 0 (S pos)) as (Hs & Hin & Hall).
        split; [exact Hs | split].
        -- intros p m Hpm.
           destruct (Hin p m Hpm) as (k & -> & _ & Hk & Hm).
           exists (S k). splits; try lia; exact Hm.
        -- intros k m _ Hk Hm. destruct k as [| k].
           ++ simpl in Hm. congruence.
           ++ simpl in Hm.
              destruct (Hall k m ltac:(lia) ltac:(lia) Hm)
                as [Hhere | (q & m' & Hq & Hlo & Hhi)].
              ** left. now replace (pos + S k) with (S pos + k) by lia.
              ** right. exists q, m'. split; [exact Hq | lia].
    + destruct (IH skip (S pos)) as (Hs & Hin & Hall).
      split; [exact Hs | split].
      * intros p m Hpm.
        destruct (Hin p m Hpm) as (k & -> & Hsk & Hk & Hm).
        exists (S k). splits; try lia; exact Hm.
      * intros k m Hsk Hk Hm. destruct k as [| k]; [lia |].
        simpl in Hm.
        destruct (Hall k m ltac:(lia) ltac:(lia) Hm)
          as [Hhere | (q & m' & Hq & Hlo & Hhi)].
        -- left. now replace (pos + S k) with (S pos + k) by lia.
        -- right. exists q, m'. split; [exact Hq | lia].
Qed.

(** [finditer] lists the matches in text order. *)
Lemma finditer_leftmost (r : regex) (text : string) :
  leftmost_matches r text (finditer r text).
Proof.
  unfold leftmost_matches, finditer.
  destruct (scan_spec r text 0 0) as (Hs & Hin & Hall).
  split; [exact Hs | split].
  - intros p m Hpm. destruct (Hin p m Hpm) as (k & -> & _ & Hk & Hm).
    simpl. split; [exact Hk | split; [exact Hm |]].
    now apply (match_at_prefix r).
  - intros p m Hp Hm. apply (Hall p m); [lia | exact Hp | exact Hm].
Qed.

(** *** From the order of the candidates to the order in the text *)

Lemma cleaned_links_app (l1 l2 : list string) :
  cleaned_links (l1 ++ l2) = cleaned_links l1 ++ cleaned_links l2.
Proof.
  induction l1 as [| link rest IH]; simpl; [reflexivity |].
  destruct (clean_link link); simpl; now rewrite IH.
Qed.

Lemma cleaned_links_In (links : list string) (x : string) :
  In x (cleaned_links links) <-> exists m, In m links /\ clean_link m = Some x.
Proof.
  induction links as [| link rest IH]; simpl.
  - split; [intros [] | intros (m & [] & _)].
  - destruct (clean_link link) as [l |] eqn:E; simpl; rewrite IH; split.
    + intros [<- | (m & Hm & Hc)]; [exists link; auto | exists m; auto].
    + intros (m & [<- | Hm] & Hc); [left; congruence | right; eauto].
    + intros (m & Hm & Hc). exists m; auto.
    + intros (m & [<- | Hm] & Hc); [congruence | eauto].
Qed.

Lemma first_index_lt (x : string) (l : list string) (i : nat) :
  first_index x l = Some i -> i < List.length l.
Proof.
  revert i. induction l as [| y rest IH]; intros i; simpl; [discriminate |].
  destruct (String.eqb x y); [intros [= <-]; lia |].
  destruct (first_index x rest) as [k |]; [| discriminate].
  intros [= <-]. specialize (IH k eq_refl). lia.
Qed.

Lemma first_index_app (x : string) (l1 l2 : list string) :
  first_index x (l1 ++ l2)
  = match first_index x l1 with
    | Some i => Some i
    | None => option_map (Nat.add (List.length l1)) (first_index x l2)
    end.
Proof.
  induction l1 as [| y rest IH]; simpl.
  - now destruct (first_index x l2).
  - destruct (String.eqb x y); [reflexivity |]. rewrite IH.
    destruct (first_index x rest); [reflexivity |].
    now destruct (first_index x l2).
Qed.

Lemma first_clean_cons (x : string) (p : nat) (m : string)
    (occ : list (nat * string)) :
  first_clean x ((p, m) :: occ)
  = if cleans_to x m then Some p else first_clean x occ.
Proof. unfold first_clean. simpl. now destruct (cleans_to x m). Qed.

Lemma first_clean_In (x : string) (occ : list (nat * string)) (p : nat) :
  first_clean x occ = Some p -> exists m, In (p, m) occ.
Proof.
  induction occ as [| [p0 m0] rest IH]; [discriminate |].
  rewrite first_clean_cons. destruct (cleans_to x m0).
  - intros [= <-]. exists m0. now left.
  - intros H. destruct (IH H) as [m Hm]. exists m. now right.
Qed.

(** A candidate of the cleaned list comes from a match, and a URL that is
    no candidate comes from none. *)
Lemma first_index_first_clean (x : string) (occ : list (nat * string)) :
  match first_index x (cleaned_links (map snd occ)) with
  | Some _ => first_clean x occ <> None
  | None => first_clean x occ = None
  end.
Proof.
  induction occ as [| [p0 m0] rest IH]; simpl; [reflexivity |].
  rewrite first_clean_cons. unfold cleans_to.
  destruct (clean_link m0) as [l |]; [| exact IH]. simpl.
  rewrite (String.eqb_sym l x).
  destruct (String.eqb x l); [discriminate |].
  destruct (first_index x (cleaned_links (map snd rest))); exact IH.
Qed.

(** Among the matches of one pattern, the order of the candidates is the
    order of the offsets. *)
Lemma first_index_offsets (occ : list (nat * string)) (a b : string)
    (i j : nat) :
  StronglySorted starts_after occ ->
  first_index a (cleaned_links (map snd occ)) = Some i ->
  first_index b (cleaned_links (map snd occ)) = Some j ->
  i < j ->
  exists p q, first_clean a occ = Some p /\ first_clean b occ = Some q /\ p < q.
Proof.
  intros Hs. revert i j.
  induction occ as [| [p0 m0] rest IH]; intros i j; simpl; [discriminate |].
  apply StronglySorted_inv in Hs. destruct Hs as [Hs Hall].
  rewrite !first_clean_cons. unfold cleans_to.
  destruct (clean_link m0) as [l |]; [| now apply IH]. simpl.
  rewrite (String.eqb_sym l a), (String.eqb_sym l b).
  destruct (String.eqb a l).
  - intros [= <-].
    destruct (String.eqb b l); [intros [= <-]; lia |].
    pose proof (first_index_first_clean b rest) as Hb.
    destruct (first_index b (cleaned_links (map snd rest))); [| discriminate].
    intros _ _.
    destruct (first_clean b rest) as [q |] eqn:Eq; [| now destruct Hb].
    exists p0, q. split; [reflexivity | split; [reflexivity |]].
    destruct (first_clean_In b rest q Eq) as [m Hm].
    rewrite Forall_forall in Hall. now destruct (Hall (q, m) Hm).
  - destruct (first_index a (cleaned_links (map snd rest))) as [i' |] eqn:Ea;
      [| discriminate].
    intros [= <-].
    destruct (String.eqb b l); [intros [= <-]; lia |].
    destruct (first_index b (cleaned_links (map snd rest))) as [j' |] eqn:Eb;
      [| discriminate].
    intros [= <-] Hlt. apply (IH Hs i' j'); [reflexivity | reflexivity | lia].
Qed.

(** The candidates are the cleaned matches of the first pattern followed by
    those of the second. *)
Lemma cleaned_all_links (text : string) :
  cleaned_links (all_links text)
  = cleaned_links (map snd (finditer scheme_pattern text))
    ++ cleaned_links (map snd (finditer www_pattern text)).
Proof.
  unfold all_links, patterns, findall. simpl.
  now rewrite app_nil_r, cleaned_links_app.
Qed.

(** The order of the candidates, read in the text. *)
Lemma candidate_order_in_text (text a b : string) (i j : nat) :
  first_index a (cleaned_links (all_links text)) = Some i ->
  first_index b (cleaned_links (all_links text)) = Some j ->
  i < j ->
  pattern_then_offset text a b.
Proof.
  rewrite cleaned_all_links, !first_index_app.
  unfold pattern_then_offset, first_offset.
  set (A := finditer scheme_pattern text). set (B := finditer www_pattern text).
  pose proof (first_index_first_clean a A) as HaA.
  pose proof (first_index_first_clean b A) as HbA.
  pose proof (first_index_first_clean a B) as HaB.
  pose proof (first_index_first_clean b B) as HbB.
  assert (HsA : StronglySorted starts_after A)
    by apply (finditer_leftmost scheme_pattern text).
  assert (HsB : StronglySorted starts_after B)
    by apply (finditer_leftmost www_pattern text).
  destruct (first_index a (cleaned_links (map snd A))) as [ia |] eqn:Ea;
    destruct (first_index b (cleaned_links (map snd A))) as [jb |] eqn:Eb.
  - intros [= <-] [= <-] Hlt.
    destruct (first_index_offsets A a b ia jb HsA Ea Eb Hlt)
      as (p & q & -> & -> & Hpq). exact Hpq.
  - intros [= <-] Hj _. rewrite HbA.
    destruct (first_clean a A); [| now destruct HaA].
    destruct (first_index b (cleaned_links (map snd B))); [exact HbB | discriminate].
  - intros Hi [= <-] Hlt. apply first_index_lt in Eb.
    destruct (first_index a (cleaned_links (map snd B))); [| discriminate].
    simpl in Hi. injection Hi as <-. lia.
  - rewrite HaA, HbA.
    destruct (first_index a (cleaned_links (map snd B))) as [i' |] eqn:Ea';
      [| discriminate].
    destruct (first_index b (cleaned_links (map snd B))) as [j' |] eqn:Eb';
      [| discriminate].
    simpl. intros [= <-] [= <-] Hlt.
    destruct (first_index_offsets B a b i' j' HsB Ea' Eb' ltac:(lia))
      as (p & q & -> & -> & Hpq). exact Hpq.
Qed.

(** C2, as stated, fails: the text below shows its www-prefixed link first,
    yet the extractor returns the scheme-prefixed one first. *)
Lemma extract_links_not_in_text_order :
  ~ in_text_order "www.first-site.com and https://second.org/page".
Proof.
  intros H.
  destruct (H "https://second.org/page" "https://www.first-site.com")
    as (p & q & Hp & Hq & Hlt).
  - exists 0, 1. split; [lia | split; vm_compute; reflexivity].
  - vm_compute in Hp, Hq. injection Hp as <-. injection Hq as <-. lia.
Qed.

(** C2, amended: for every text the extractor returns a sequence without
    duplicates, made of exactly the cleaned candidates, in the order of
    first occurrence in the list of candidates; that list holds the matches
    of the scheme-prefixed pattern in text order, followed by the matches of
    the www-prefixed pattern in text order.  Text order is that of the
    offsets: the matches of each pattern are listed from left to right,
    each being the match found at its offset in the text and none being
    left out but those that start inside a listed one.  So the returned
    URLs are the cleaned matches of the two patterns, and they stand in
    order of pattern first (a URL given by a scheme-prefixed match before
    one only www-prefixed matches give) and, within one pattern, in order
    of the text offsets of their first matches. *)
Theorem extract_links_unique_in_candidate_order (text : string) :
  NoDup (extract_links text) /\
  (forall x, In x (extract_links text) <-> In x (cleaned_links (all_links text))) /\
  all_links text = findall scheme_pattern text ++ findall www_pattern text /\
  in_candidate_order text /\
  (forall pattern, In pattern patterns ->
     leftmost_matches pattern text (finditer pattern text)) /\
  (forall x, In x (extract_links text) <->
     exists pattern p m,
       In pattern patterns /\ In (p, m) (finditer pattern text) /\
       clean_link m = Some x) /\
  (forall a b, before (extract_links text) a b -> pattern_then_offset text a b).
Proof.
  assert (Hmem : forall x, In x (extract_links text)
                           <-> In x (cleaned_links (all_links text))).
  { intros x. unfold extract_links. rewrite unique_links_In.
    split; [now intros [H _] | intros H; split; [exact H | intros []]]. }
  assert (Hord : in_candidate_order text).
  { intros a b Hb. eapply unique_links_order. exact Hb. }
  split; [apply unique_links_NoDup |].
  split; [exact Hmem |].
  split; [unfold all_links, patterns; simpl; now rewrite app_nil_r |].
  split; [exact Hord |].
  split; [intros pattern _; apply finditer_leftmost |].
  split.
  - intros x. rewrite Hmem, cleaned_links_In. unfold all_links. split.
    + intros (m & Hm & Hc). apply in_flat_map in Hm.
      destruct Hm as (pattern & Hp & Hm). unfold findall in Hm.
      apply in_map_iff in Hm. destruct Hm as ([p m'] & Heq & Hin).
      simpl in Heq. subst m'. exists pattern, p, m. auto.
    + intros (pattern & p & m & Hp & Hin & Hc). exists m. split; [| exact Hc].
      apply in_flat_map. exists pattern. split; [exact Hp |].
      unfold findall. apply in_map_iff. exists (p, m). auto.
  - intros a b Hb. destruct (Hord a b Hb) as (i & j & Hi & Hj & Hlt).
    exact (candidate_order_in_text text a b i j Hi Hj Hlt).
Qed.

Lemma extract_links_unique_in_candidate_order_witness :
  before (extract_links "www.first-site.com and https://second.org/page")
    "https://second.org/page" "https://www.first-site.com" /\
  pattern_then_offset "www.first-site.com and https://second.org/page"
    "https://second.org/page" "https://www.first-site.com".
Proof.
  assert (Hb : before (extract_links "www.first-site.com and https://second.org/page")
                 "https://second.org/page" "https://www.first-site.com").
  { exists 0, 1. split; [lia | split; vm_compute; reflexivity]. }
  split; [exact Hb |].
  exact (proj2 (proj2 (proj2 (proj2 (proj2 (proj2
           (extract_links_unique_in_candidate_order
              "www.first-site.com and https://second.org/page"))))))
           "https://second.org/page" "https://www.first-site.com" Hb).
Defined.

(** C9: on the text below the first extraction returns the upper-case www
    link first, without a scheme; extracting again from its own output
    returns the same two links in the opposite order.  With both links in
    lower case the second extraction repeats the first. *)
Theorem extract_links_reorders_uppercase_www :
  extract_links "WWW.aaaa.com www.bbbb.com"
    = ["WWW.aaaa.com"; "https://www.bbbb.com"] /\
  extract_links (text_of (extract_links "WWW.aaaa.com www.bbbb.com"))
    = ["https://www.bbbb.com"; "WWW.aaaa.com"] /\
  extract_links (text_of (extract_links "www.aaaa.com www.bbbb.com"))
    = extract_links "www.aaaa.com www.bbbb.com".
Proof. split; [| split]; vm_compute; reflexivity. Qed.

(** ** The link prober *)

Lemma classify_status (m : Method) (code : Z) (status : string)
    (error : option string) :
  classify m code = Some (status, error) ->
  (status = "valid" \/ status = "warning" \/ status = "invalid") /\
  error <> Some "Invalid URL format".
Proof.
  unfold classify.
  destruct (code <? 400)%Z; [intros [= <- <-]; split; [tauto | discriminate] |].
  destruct (code =? 404)%Z.
  { destruct m; [discriminate |]. intros [= <- <-]. split; [tauto | discriminate]. }
  destruct (code =? 403)%Z.
  { destruct m; [discriminate |]. intros [= <- <-]. split; [tauto | discriminate]. }
  destruct (code =? 429)%Z; [intros [= <- <-]; split; [tauto | discriminate] |].
  destruct (500 <=? code)%Z; intros [= <- <-]; (split; [tauto | discriminate]).
Qed.

(** A result returned from inside the loop over the tiers comes from the
    classification of a response. *)
Lemma try_methods_inl (env : Env) (u : string) (attempt : Z)
    (methods : list Method) (last : option string) (w w' : World)
    (r : LinkResult) :
  try_methods env u attempt methods last w = (inl r, w') ->
  exists m code,
    classify m code = Some (r_status r, r_error r) /\
    r_url r = u /\ r_attempt r = attempt.
Proof.
  revert last w. induction methods as [| m rest IH]; intros last w; simpl.
  - unfold ret. discriminate.
  - unfold bind, send, elapsed, ret. simpl.
    destruct (request env (List.length (sent w)) m u) as [response | e].
    + destruct (classify m (status_code response)) as [[status error] |] eqn:E.
      * intros [= <- <-]. exists m, (status_code response). simpl. tauto.
      * apply IH.
    + apply IH.
Qed.

(** The loop over the tiers only adds to the requests sent. *)
Lemma try_methods_sent (env : Env) (u : string) (attempt : Z)
    (methods : list Method) (last : option string) (w : World) :
  exists more,
    sent (snd (try_methods env u attempt methods last w)) = sent w ++ more.
Proof.
  revert last w. induction methods as [| m rest IH]; intros last w; simpl.
  - exists []. unfold ret. simpl. now rewrite app_nil_r.
  - unfold bind, send, elapsed, ret. simpl.
    destruct (request env (List.length (sent w)) m u) as [response | e].
    + destruct (classify m (status_code response)) as [[status error] |].
      * exists [(m, u)]. reflexivity.
      * match goal with |- context [try_methods _ _ _ _ ?l ?w0] =>
          destruct (IH l w0) as [more Hmore] end.
        exists ((m, u) :: more). rewrite Hmore. simpl.
        now rewrite <- app_assoc.
    + match goal with |- context [try_methods _ _ _ _ ?l ?w0] =>
        destruct (IH l w0) as [more Hmore] end.
      exists ((m, u) :: more). rewrite Hmore. simpl.
      now rewrite <- app_assoc.
Qed.

(** Every attempt classifies: its status is one of the three. *)
Lemma attempt_status (env : Env) (u : string) (attempt : Z) (w : World) :
  let r := fst (validate_single_link_attempt env u attempt w) in
  (r_status r = "valid" \/ r_status r = "warning" \/ r_status r = "invalid") /\
  r_url r = u /\ r_attempt r = attempt.
Proof.
  unfold validate_single_link_attempt.
  destruct (urlparse env u) as [parsed | e].
  - destruct (String.eqb (scheme parsed) "" || String.eqb (netloc parsed) "").
    + simpl. tauto.
    + unfold bind.
      destruct (try_methods env u attempt [HEAD; GET] None w) as [[r | last] w'] eqn:E.
      * simpl. destruct (try_methods_inl _ _ _ _ _ _ _ _ E) as (m & code & Hc & Hu & Ha).
        apply classify_status in Hc. tauto.
      * simpl. tauto.
  - simpl. tauto.
Qed.

(** C3, as stated, fails: a URL with a scheme and no host is settled by the
    malformed-URL check, without any request. *)
Lemma scheme_without_host_short_circuited :
  exists parsed,
    urlparse (scripted mailto_parsed []) "mailto:someone@example.com"
      = Value parsed /\
    scheme parsed <> "" /\
    short_circuited (scripted mailto_parsed []) "mailto:someone@example.com"
      1 start.
Proof.
  eexists. split; [reflexivity |]. split; [discriminate | reflexivity].
Qed.

(** C3, amended: an attempt is settled by the malformed-URL check (result
    invalid, reason Invalid URL format, zero latency, no request sent)
    exactly when the parsed URL lacks a scheme or lacks a host; a URL that
    has both is not stopped there: its HEAD request is sent. *)
Theorem malformed_iff_scheme_or_host_missing (env : Env) (u : string)
    (attempt : Z) (w : World) :
  (short_circuited env u attempt w <->
   exists parsed, urlparse env u = Value parsed /\
                  (scheme parsed = "" \/ netloc parsed = "")) /\
  (forall parsed, urlparse env u = Value parsed ->
     scheme parsed <> "" -> netloc parsed <> "" ->
     exists more,
       sent (snd (validate_single_link_attempt env u attempt w))
       = sent w ++ (HEAD, u) :: more).
Proof.
  unfold short_circuited, validate_single_link_attempt. split; [split |].
  - destruct (urlparse env u) as [parsed | e].
    + destruct (String.eqb (scheme parsed) "" || String.eqb (netloc parsed) "")
        eqn:G.
      * intros _. exists parsed. split; [reflexivity |].
        apply orb_true_iff in G. now rewrite !String.eqb_eq in G.
      * unfold bind.
        destruct (try_methods env u attempt [HEAD; GET] None w)
          as [[r | last] w'] eqn:E.
        -- destruct (try_methods_inl _ _ _ _ _ _ _ _ E) as (m & code & Hc & _).
           apply classify_status in Hc. destruct Hc as [_ Hc].
           unfold ret. intros [= -> _]. exfalso. now apply Hc.
        -- unfold elapsed, ret. simpl. intros H. inversion H.
    + unfold bind, elapsed, ret. simpl. intros H. inversion H.
  - intros (parsed & -> & H).
    assert (G : String.eqb (scheme parsed) "" || String.eqb (netloc parsed) ""
                = true).
    { apply orb_true_iff. rewrite !String.eqb_eq. exact H. }
    now rewrite G.
  - intros parsed -> Hs Hn.
    apply String.eqb_neq in Hs, Hn. rewrite Hs, Hn. simpl.
    unfold bind, send, elapsed, ret. simpl.
    set (w1 := {| sent := sent w ++ [(HEAD, u)]; slept := slept w |}).
    destruct (request env (List.length (sent w)) HEAD u) as [response | e].
    + destruct (classify HEAD (status_code response)) as [[status error] |].
      * exists []. reflexivity.
      * destruct (request env (List.length (sent w1)) GET u) as [response' | e'].
        -- destruct (classify GET (status_code response')) as [[status error] |];
             exists [(GET, u)]; simpl; now rewrite <- app_assoc.
        -- exists [(GET, u)]; simpl; now rewrite <- app_assoc.
    + destruct (request env (List.length (sent w1)) GET u) as [response' | e'].
      * destruct (classify GET (status_code response')) as [[status error] |];
          exists [(GET, u)]; simpl; now rewrite <- app_assoc.
      * exists [(GET, u)]; simpl; now rewrite <- app_assoc.
Qed.

Lemma guard_passed (parsed : ParseResult) :
  scheme parsed <> "" -> netloc parsed <> "" ->
  String.eqb (scheme parsed) "" || String.eqb (netloc parsed) "" = false.
Proof.
  intros Hs Hn. apply String.eqb_neq in Hs, Hn. now rewrite Hs, Hn.
Qed.

(** The HEAD tier settles the attempt when its status is classified. *)
Lemma attempt_settled_by_head (env : Env) (u : string) (attempt : Z)
    (w : World) (parsed : ParseResult) (response : Response)
    (status : string) (error : option string) :
  urlparse env u = Value parsed ->
  scheme parsed <> "" -> netloc parsed <> "" ->
  request env (List.length (sent w)) HEAD u = Value response ->
  classify HEAD (status_code response) = Some (status, error) ->
  let result := fst (validate_single_link_attempt env u attempt w) in
  r_status result = status /\ r_method_used result = Some HEAD /\
  r_status_code result = Some (status_code response).
Proof.
  intros Hp Hs Hn Hr Hc. unfold validate_single_link_attempt.
  rewrite Hp, (guard_passed _ Hs Hn). simpl.
  unfold bind, send, elapsed, ret. simpl. rewrite Hr, Hc. simpl. tauto.
Qed.

(** The GET tier settles the attempt when the HEAD tier passes it on. *)
Lemma attempt_settled_by_get (env : Env) (u : string) (attempt : Z)
    (w : World) (parsed : ParseResult) (response : Response) :
  urlparse env u = Value parsed ->
  scheme parsed <> "" -> netloc parsed <> "" ->
  escalates (request env (List.length (sent w)) HEAD u) ->
  request env (S (List.length (sent w))) GET u = Value response ->
  let result := fst (validate_single_link_attempt env u attempt w) in
  classify GET (status_code response) = Some (r_status result, r_error result) /\
  r_method_used result = Some GET /\
  r_status_code result = Some (status_code response).
Proof.
  intros Hp Hs Hn He Hr. unfold validate_single_link_attempt.
  rewrite Hp, (guard_passed _ Hs Hn). simpl.
  unfold bind, send, elapsed, ret. simpl.
  assert (Hlen : List.length (sent w ++ [(HEAD, u)]) = S (List.length (sent w))).
  { rewrite length_app. simpl. lia. }
  assert (Hget : exists status error,
             classify GET (status_code response) = Some (status, error)).
  { unfold classify.
    destruct (status_code response <? 400)%Z; [eauto |].
    destruct (status_code response =? 404)%Z; [eauto |].
    destruct (status_code response =? 403)%Z; [eauto |].
    destruct (status_code response =? 429)%Z; [eauto |].
    destruct (500 <=? status_code response)%Z; eauto. }
  destruct Hget as (status & error & Hget).
  destruct (request env (List.length (sent w)) HEAD u) as [head | e]; simpl in He.
  - assert (Hnone : classify HEAD (status_code head) = None).
    { destruct He as [-> | ->]; reflexivity. }
    rewrite Hnone. cbn. rewrite Hlen, Hr. cbn. rewrite Hget. cbn. tauto.
  - cbn. rewrite Hlen, Hr. cbn. rewrite Hget. cbn. tauto.
Qed.

(** On the codes of the table, the GET tier classifies as the table says,
    and so does the HEAD tier apart from 403 and 404. *)
Lemma classify_get_table (c : Z) :
  In c table_codes -> exists error, classify GET c = Some (table c, error).
Proof.
  simpl.
  intros [<- | [<- | [<- | [<- | [<- | [<- | [<- | []]]]]]]];
    vm_compute; eauto.
Qed.

Lemma classify_head_table (c : Z) :
  In c table_codes -> c <> 403%Z -> c <> 404%Z ->
  exists error, classify HEAD c = Some (table c, error).
Proof.
  simpl.
  intros [<- | [<- | [<- | [<- | [<- | [<- | [<- | []]]]]]]] H403 H404;
    try congruence; vm_compute; eauto.
Qed.

(** C4, as stated, fails: a 403 from the HEAD tier is not classified as a
    warning; the attempt goes on to the GET tier, whose 200 makes it
    valid. *)
Lemma head_403_not_classified_by_table :
  request (scripted (https_host "example.com")
             [responds 403 example_url; responds 200 example_url])
    0 HEAD example_url = responds 403 example_url /\
  In 403%Z table_codes /\
  r_status (fst (validate_single_link_attempt
                   (scripted (https_host "example.com")
                      [responds 403 example_url; responds 200 example_url])
                   example_url 1 start))
  <> table 403.
Proof.
  split; [reflexivity |]. split; [simpl; tauto |]. vm_compute. discriminate.
Qed.

(** C4, amended: for a status code among 200, 301, 403, 404, 429, 500 and
    503, the classification is that of the table (below 400 valid, 403, 429
    and 500 or more warning, 404 invalid) whenever the GET tier produces
    the code, and whenever the HEAD tier produces a code other than 403
    and 404; a 403 or a 404 from the HEAD tier is not classified: the
    attempt is escalated and settled by the GET tier. *)
Theorem classification_by_tier (env : Env) (u : string) (attempt : Z)
    (w : World) (parsed : ParseResult) (c : Z) :
  urlparse env u = Value parsed ->
  scheme parsed <> "" -> netloc parsed <> "" ->
  In c table_codes ->
  let result := fst (validate_single_link_attempt env u attempt w) in
  let n := List.length (sent w) in
  (forall response,
     request env n HEAD u = Value response -> status_code response = c ->
     c <> 403%Z -> c <> 404%Z ->
     r_status result = table c /\ r_method_used result = Some HEAD /\
     r_status_code result = Some c) /\
  (forall response,
     escalates (request env n HEAD u) ->
     request env (S n) GET u = Value response -> status_code response = c ->
     r_status result = table c /\ r_method_used result = Some GET /\
     r_status_code result = Some c).
Proof.
  intros Hp Hs Hn Hc result n. split.
  - intros response Hr Hcode H403 H404.
    destruct (classify_head_table c Hc H403 H404) as [error Hcl].
    rewrite <- Hcode in Hcl at 1.
    destruct (attempt_settled_by_head env u attempt w parsed response _ _
                Hp Hs Hn Hr Hcl) as (H1 & H2 & H3).
    subst result. rewrite H1, H2, H3, Hcode. tauto.
  - intros response He Hr Hcode.
    destruct (attempt_settled_by_get env u attempt w parsed response
                Hp Hs Hn He Hr) as (H1 & H2 & H3).
    destruct (classify_get_table c Hc) as [error Hcl].
    subst result. rewrite H2, H3, Hcode. split; [| tauto].
    rewrite Hcode, Hcl in H1. now injection H1 as <- _.
Qed.

Lemma classification_by_tier_witness :
  r_status (fst (validate_single_link_attempt
                   (scripted (https_host "example.com")
                      [responds 404 example_url; responds 404 example_url])
                   example_url 1 start))
  = table 404.
Proof.
  refine (proj1 (proj2 (classification_by_tier
            (scripted (https_host "example.com")
               [responds 404 example_url; responds 404 example_url])
            example_url 1 start
            {| scheme := "https"; netloc := "example.com" |} 404
            eq_refl _ _ _)
          {| status_code := 404; url := example_url; history := 0 |}
          _ eq_refl eq_refl)).
  - discriminate.
  - discriminate.
  - simpl. tauto.
  - simpl. tauto.
Defined.

(** ** The retry coordinator *)

Lemma rank_le_2 (status : string) : rank status <= 2.
Proof.
  unfold rank. destruct (String.eqb status "valid"); [lia |].
  destruct (String.eqb status "warning"); lia.
Qed.

(** The first valid attempt ends the loop at once. *)
Lemma retry_loop_valid (env : Env) (max_retries : Z) (u : string)
    (attempt : Z) (rest : list Z) (best : option LinkResult) (w : World) :
  r_status (fst (validate_single_link_attempt env u attempt w)) = "valid" ->
  retry_loop env max_retries u (attempt :: rest) best w
  = (Some (fst (validate_single_link_attempt env u attempt w)),
     snd (validate_single_link_attempt env u attempt w)).
Proof.
  intros H. simpl. unfold bind.
  destruct (validate_single_link_attempt env u attempt w) as [result w1].
  simpl in *. now rewrite H.
Qed.

Lemma keep_best_rank (best : option LinkResult) (result : LinkResult) :
  (forall b, best = Some b ->
     r_status b = "warning" \/ r_status b = "invalid") ->
  r_status result = "warning" \/ r_status result = "invalid" ->
  exists kept,
    keep_best best result = Some kept /\
    (kept = result \/ best = Some kept) /\
    (r_status kept = "warning" \/ r_status kept = "invalid") /\
    rank (r_status result) <= rank (r_status kept) /\
    (forall b, best = Some b -> rank (r_status b) <= rank (r_status kept)).
Proof.
  intros Hb Hr. destruct best as [b |]; simpl.
  - destruct (Hb b eq_refl) as [Hbs | Hbs]; destruct Hr as [Hrs | Hrs];
      rewrite Hbs, Hrs; simpl; eexists; (split; [reflexivity |]);
      rewrite ?Hbs, ?Hrs; (split; [auto |]); (split; [auto |]);
      (split; [unfold rank; simpl; lia |]);
      intros b' [= <-]; rewrite ?Hbs; unfold rank; simpl; lia.
  - exists result. repeat split; auto. discriminate.
Qed.

(** The loop returns a result of highest rank among the held one and those
    of the attempts it makes. *)
Lemma retry_loop_best (env : Env) (max_retries : Z) (u : string)
    (attempts : list Z) (best : option LinkResult) (w : World) :
  (forall b, best = Some b ->
     r_status b = "warning" \/ r_status b = "invalid") ->
  (best = None -> attempts <> []) ->
  exists r,
    fst (retry_loop env max_retries u attempts best w) = Some r /\
    (best = Some r \/ In r (attempts_made env max_retries u attempts w)) /\
    (forall b, best = Some b -> rank (r_status b) <= rank (r_status r)) /\
    (forall r', In r' (attempts_made env max_retries u attempts w) ->
       rank (r_status r') <= rank (r_status r)).
Proof.
  revert best w. induction attempts as [| attempt rest IH]; intros best w Hb Hne.
  - destruct best as [b |]; [| now destruct (Hne eq_refl)].
    exists b. simpl. repeat split; auto.
    + intros b' [= <-]. lia.
    + intros r' [].
  - simpl. unfold bind.
    pose proof (attempt_status env u attempt w) as Hst. simpl in Hst.
    destruct (validate_single_link_attempt env u attempt w) as [result w1].
    simpl in Hst. destruct Hst as [Hst _].
    destruct (String.eqb (r_status result) "valid") eqn:Ev.
    + apply String.eqb_eq in Ev. exists result. simpl. repeat split; auto.
      * intros b _. rewrite Ev. apply rank_le_2.
      * intros r' [<- | []]. lia.
    + assert (Hr : r_status result = "warning" \/ r_status result = "invalid").
      { apply String.eqb_neq in Ev. tauto. }
      destruct (keep_best_rank best result Hb Hr)
        as (kept & Hk & Hfrom & Hks & Hkr & Hkb).
      set (w2 := if (attempt <? max_retries)%Z
                    && String.eqb (r_status result) "invalid"
                 then snd (sleep1 w1) else w1).
      assert (Hw : (let (_, w') :=
                      (if (attempt <? max_retries)%Z
                          && String.eqb (r_status result) "invalid"
                       then sleep1 else ret tt) w1 in
                    retry_loop env max_retries u rest (keep_best best result) w')
                   = retry_loop env max_retries u rest (keep_best best result) w2).
      { subst w2.
        destruct ((attempt <? max_retries)%Z
                  && String.eqb (r_status result) "invalid"); reflexivity. }
      rewrite Hw, Hk.
      destruct (IH (Some kept) w2) as (r & Hres & Hin & Hrb & Hrm).
      { intros b [= <-]. exact Hks. }
      { discriminate. }
      exists r. split; [exact Hres |]. split; [| split].
      * destruct Hin as [[= <-] | Hin].
        -- destruct Hfrom as [-> | ->]; [right; now left | now left].
        -- right. right. exact Hin.
      * intros b Hbest. specialize (Hkb b Hbest). specialize (Hrb kept eq_refl). lia.
      * intros r' [<- | Hin'].
        -- specialize (Hrb kept eq_refl). lia.
        -- now apply Hrm.
Qed.

(** C5, as stated, fails: with a maximum attempt count of 0 no attempt is
    made and the coordinator returns None. *)
Lemma no_attempt_no_result :
  fst (validate_single_link
         (scripted (https_host "example.com") [responds 200 example_url])
         0 example_url start) = None.
Proof. reflexivity. Qed.

(** C5, amended: the coordinator returns at once after the first attempt
    that classifies valid, the world being that of this attempt (no further
    request, no sleep); a warning result displaces a held invalid one and an
    invalid result never displaces a held warning; and whenever the maximum
    attempt count is at least 1 it returns a result (never None), which is
    one of the attempts made and of highest rank among them under
    valid > warning > invalid. *)
Theorem retry_keeps_best (env : Env) (max_retries : Z) (u : string) (w : World) :
  (forall attempt rest best w0,
     r_status (fst (validate_single_link_attempt env u attempt w0)) = "valid" ->
     retry_loop env max_retries u (attempt :: rest) best w0
     = (Some (fst (validate_single_link_attempt env u attempt w0)),
        snd (validate_single_link_attempt env u attempt w0))) /\
  (forall held result,
     r_status held = "invalid" -> r_status result = "warning" ->
     keep_best (Some held) result = Some result) /\
  (forall held result,
     r_status held = "warning" -> r_status result = "invalid" ->
     keep_best (Some held) result = Some held) /\
  ((1 <= max_retries)%Z ->
   exists r,
     fst (validate_single_link env max_retries u w) = Some r /\
     In r (attempts_made env max_retries u (range1 max_retries) w) /\
     forall r', In r' (attempts_made env max_retries u (range1 max_retries) w) ->
       rank (r_status r') <= rank (r_status r)).
Proof.
  split; [| split; [| split]].
  - intros. now apply retry_loop_valid.
  - intros held result Hh Hr. simpl. now rewrite Hh, Hr.
  - intros held result Hh Hr. simpl. now rewrite Hh, Hr.
  - intros Hmr. unfold validate_single_link.
    destruct (retry_loop_best env max_retries u (range1 max_retries) None w)
      as (r & Hres & Hin & _ & Hrm).
    + discriminate.
    + intros _. unfold range1.
      destruct (Z.to_nat max_retries) eqn:E; [lia | discriminate].
    + exists r. split; [exact Hres |]. split; [| exact Hrm].
      destruct Hin as [Hin | Hin]; [discriminate | exact Hin].
Qed.

Lemma retry_keeps_best_witness :
  exists r,
    fst (validate_single_link
           (scripted (https_host "example.com")
              [Raise "refused"; Raise "refused"; responds 500 example_url])
           2 example_url start) = Some r /\
    r_status r = "warning".
Proof.
  destruct (proj2 (proj2 (proj2 (retry_keeps_best
              (scripted (https_host "example.com")
                 [Raise "refused"; Raise "refused"; responds 500 example_url])
              2 example_url start))) ltac:(lia)) as (r & Hres & _ & _).
  exists r. split; [exact Hres |].
  vm_compute in Hres. injection Hres as <-. reflexivity.
Defined.

(** ** The concurrent validation pool *)

Lemma insert_at_perm {A : Type} (k : nat) (x : A) (l : list A) :
  Permutation (insert_at k x l) (x :: l).
Proof.
  revert k. induction l as [| y rest IH]; intros k.
  - destruct k; apply Permutation_refl.
  - destruct k as [| k]; simpl; [apply Permutation_refl |].
    eapply Permutation_trans; [apply perm_skip, IH | apply perm_swap].
Qed.

(** Whatever the order of completion, the futures completed are the futures
    submitted. *)
Lemma shuffle_perm {A : Type} (code : nat -> nat) (l : list A) :
  Permutation (shuffle code l) l.
Proof.
  induction l as [| x rest IH]; simpl; [constructor |].
  eapply Permutation_trans; [apply insert_at_perm | now apply perm_skip].
Qed.

(** Every attempt made on [u] carries [u] and one of the three statuses. *)
Lemma attempts_made_sound (env : Env) (max_retries : Z) (u : string)
    (attempts : list Z) (w : World) (r : LinkResult) :
  In r (attempts_made env max_retries u attempts w) ->
  r_url r = u /\
  (r_status r = "valid" \/ r_status r = "warning" \/ r_status r = "invalid").
Proof.
  revert w. induction attempts as [| attempt rest IH]; intros w; simpl; [tauto |].
  pose proof (attempt_status env u attempt w) as Hst. simpl in Hst.
  destruct (validate_single_link_attempt env u attempt w) as [result w1].
  simpl in Hst. intros [<- | Hin]; [tauto |].
  destruct (String.eqb (r_status result) "valid"); [destruct Hin |].
  eapply IH. exact Hin.
Qed.

(** With at least one attempt allowed, the coordinator returns a result for
    its URL, with one of the three statuses. *)
Lemma validate_single_link_sound (env : Env) (max_retries : Z) (u : string)
    (w : World) :
  (1 <= max_retries)%Z ->
  exists r,
    fst (validate_single_link env max_retries u w) = Some r /\
    r_url r = u /\
    (r_status r = "valid" \/ r_status r = "warning" \/ r_status r = "invalid").
Proof.
  intros Hmr. unfold validate_single_link.
  destruct (retry_loop_best env max_retries u (range1 max_retries) None w)
    as (r & Hres & Hin & _ & _).
  - discriminate.
  - intros _. unfold range1.
    destruct (Z.to_nat max_retries) eqn:E; [lia | discriminate].
  - exists r. split; [exact Hres |].
    destruct Hin as [Hin | Hin]; [discriminate |].
    eapply attempts_made_sound. exact Hin.
Qed.

Lemma entry_of_sound (pool : Pool) (max_retries : Z) (i : nat) (u : string) :
  (1 <= max_retries)%Z ->
  exists r,
    entry_of pool max_retries i u = Some r /\
    r_url r = u /\
    (r_status r = "valid" \/ r_status r = "warning" \/ r_status r = "invalid").
Proof.
  intros Hmr. unfold entry_of. destruct (worker_fault pool i) as [e |].
  - exists (validation_failed u e). simpl. tauto.
  - now apply validate_single_link_sound.
Qed.

(** One completed future appends one entry: that of its own worker. *)
Lemma collect_submit (pool : Pool) (max_retries : Z) (i : nat) (u : string)
    (show_progress : bool) :
  (1 <= max_retries)%Z ->
  collect show_progress (submit pool max_retries i u, u)
  = [entry_of pool max_retries i u].
Proof.
  intros Hmr. unfold collect, submit, entry_of.
  destruct (worker_fault pool i) as [e |]; [reflexivity |].
  destruct (validate_single_link_sound (worker_env pool i) max_retries u start Hmr)
    as (r & -> & _).
  now destruct show_progress.
Qed.

Lemma collect_all (pool : Pool) (max_retries : Z) (i : nat)
    (urls : list string) (show_progress : bool) :
  (1 <= max_retries)%Z ->
  flat_map (collect show_progress) (submit_all pool max_retries i urls)
  = entries_from pool max_retries i urls.
Proof.
  intros Hmr. revert i. induction urls as [| u rest IH]; intros i; simpl.
  - reflexivity.
  - rewrite IH. fold (collect show_progress (submit pool max_retries i u, u)).
    now rewrite collect_submit.
Qed.

Lemma entries_from_urls (pool : Pool) (max_retries : Z) (i : nat)
    (urls : list string) :
  (1 <= max_retries)%Z ->
  map (option_map r_url) (entries_from pool max_retries i urls) = map Some urls.
Proof.
  intros Hmr. revert i. induction urls as [| u rest IH]; intros i; simpl.
  - reflexivity.
  - destruct (entry_of_sound pool max_retries i u Hmr) as (r & -> & <- & _).
    simpl. now rewrite IH.
Qed.

Lemma entries_from_nth (pool : Pool) (max_retries : Z) (i k : nat)
    (urls : list string) (u : string) :
  nth_error urls k = Some u ->
  In (entry_of pool max_retries (i + k) u) (entries_from pool max_retries i urls).
Proof.
  revert i k. induction urls as [| v rest IH]; intros i k H.
  - destruct k; discriminate.
  - destruct k as [| k]; simpl in *.
    + injection H as ->. left. now rewrite Nat.add_0_r.
    + right. replace (i + S k) with (S i + k) by lia. now apply IH.
Qed.

Lemma submit_all_length (pool : Pool) (max_retries : Z) (i : nat)
    (urls : list string) :
  List.length (submit_all pool max_retries i urls) = List.length urls.
Proof.
  revert i. induction urls as [| u rest IH]; intros i; simpl; [| rewrite IH];
    reflexivity.
Qed.

Lemma validate_links_entries (pool : Pool) (max_retries : Z)
    (urls : list string) (show_progress : bool) :
  (1 <= max_retries)%Z ->
  Permutation (results (validate_links pool max_retries urls show_progress))
    (entries_from pool max_retries 0 urls).
Proof.
  intros Hmr. unfold validate_links. destruct urls as [| u rest].
  - constructor.
  - cbv beta iota zeta. unfold results at 1.
    rewrite <- (collect_all pool max_retries 0 (u :: rest) show_progress Hmr).
    apply Permutation_flat_map. apply shuffle_perm.
Qed.

(** C6, as stated, fails: with a maximum attempt count of 0 the coordinator
    returns None; the pool appends it and, reporting progress, reads its
    status, which raises and appends a second entry for the same URL. *)
Lemma two_entries_for_one_url :
  List.length
    (results (validate_links (calm_pool []) 0 [example_url] true))
  <> List.length [example_url].
Proof. vm_compute. discriminate. Qed.

(** C6, amended: an empty batch returns no result and submits no task; and
    whenever the maximum attempt count is at least 1, the pool returns, in
    the order of completion, exactly one result per input URL, each
    carrying its URL and being what that URL's own worker gave: an
    unexpected exception of one worker becomes, for its URL alone, an
    invalid result carrying the exception text with attempt number 1. *)
Theorem pool_one_result_per_url (pool : Pool) (max_retries : Z)
    (urls : list string) (show_progress : bool) :
  (urls = [] ->
   validate_links pool max_retries urls show_progress
   = {| results := []; spawned := 0 |}) /\
  ((1 <= max_retries)%Z ->
   let run := validate_links pool max_retries urls show_progress in
   List.length (results run) = List.length urls /\
   Permutation (map (option_map r_url) (results run)) (map Some urls) /\
   (forall i u, nth_error urls i = Some u ->
      In (entry_of pool max_retries i u) (results run)) /\
   (forall i u e, nth_error urls i = Some u -> worker_fault pool i = Some e ->
      exists r,
        In (Some r) (results run) /\
        r_url r = u /\ r_status r = "invalid" /\
        r_error r = Some ("Validation failed: " ++ e)%string /\
        r_attempt r = 1%Z)).
Proof.
  split.
  - intros ->. reflexivity.
  - intros Hmr run.
    pose proof (validate_links_entries pool max_retries urls show_progress Hmr)
      as Hperm. fold run in Hperm.
    assert (Hin : forall i u, nth_error urls i = Some u ->
                    In (entry_of pool max_retries i u) (results run)).
    { intros i u Hnth. eapply Permutation_in.
      - apply Permutation_sym. exact Hperm.
      - apply (entries_from_nth pool max_retries 0 i urls u Hnth). }
    split; [| split; [| split]].
    + rewrite (Permutation_length Hperm).
      rewrite <- (length_map (option_map r_url)).
      rewrite (entries_from_urls pool max_retries 0 urls Hmr).
      apply length_map.
    + rewrite <- (entries_from_urls pool max_retries 0 urls Hmr).
      now apply Permutation_map.
    + exact Hin.
    + intros i u e Hnth Hfault. exists (validation_failed u e).
      split; [| simpl; tauto].
      specialize (Hin i u Hnth). unfold entry_of in Hin.
      now rewrite Hfault in Hin.
Qed.

Lemma pool_one_result_per_url_witness :
  List.length
    (results (validate_links faulty_pool 2
                [example_url; "https://example.org/a"; "https://example.net/b"]
                false))
  = 3.
Proof.
  exact (proj1 (proj2 (pool_one_result_per_url faulty_pool 2
                         [example_url; "https://example.org/a";
                          "https://example.net/b"] false)
                  ltac:(lia))).
Defined.

(** ** Per-prompt aggregation *)

(** On classified entries the three comprehensions do not raise, and they
    split the entries. *)
Lemma with_status_split (link_results : list (option LinkResult)) :
  Forall classified link_results ->
  exists valid warning invalid,
    with_status "valid" link_results = Value valid /\
    with_status "warning" link_results = Value warning /\
    with_status "invalid" link_results = Value invalid /\
    List.length valid + List.length warning + List.length invalid
    = List.length link_results.
Proof.
  induction 1 as [| entry rest [r [-> Hst]] _ IH].
  - exists [], [], []. simpl. tauto.
  - destruct IH as (valid & warning & invalid & Hv & Hw & Hi & Hlen).
    simpl. rewrite Hv, Hw, Hi. simpl.
    destruct Hst as [-> | [-> | ->]]; simpl;
      do 3 eexists; (repeat split; [reflexivity .. |]); simpl; lia.
Qed.

(** The evaluator's validator (two attempts, no progress report) returns
    one classified entry per URL. *)
Lemma evaluator_batch (pool : Pool) (urls : list string) :
  let link_results :=
    match urls with
    | [] => []
    | _ => results (validate_links pool link_validator_max_retries urls false)
    end in
  Forall classified link_results /\
  List.length link_results = List.length urls.
Proof.
  assert (Hmr : (1 <= link_validator_max_retries)%Z)
    by (unfold link_validator_max_retries; lia).
  destruct urls as [| u rest]; [split; constructor |].
  cbv zeta. split.
  - eapply Permutation_Forall.
    + apply Permutation_sym. now apply validate_links_entries.
    + generalize 0. generalize (u :: rest). clear u rest.
      induction l as [| v l IH]; intros i; simpl; constructor.
      * destruct (entry_of_sound pool link_validator_max_retries i v Hmr)
          as (r & Hr & _ & Hst). exists r. tauto.
      * apply IH.
  - rewrite (Permutation_length
               (validate_links_entries pool link_validator_max_retries
                  (u :: rest) false Hmr)).
    rewrite <- (length_map (option_map r_url)).
    rewrite (entries_from_urls pool link_validator_max_retries 0 (u :: rest) Hmr).
    apply length_map.
Qed.

(** The loop over the responses does not raise and keeps the invariant. *)
Lemma validation_loop_total (suite : Suite) (api_responses : list ApiResponse)
    (i : nat) (summary : LinkSummary) (detailed_results : list Detail) :
  total_is_sum summary ->
  exists summary' detailed_results',
    validation_loop suite i api_responses summary detailed_results
    = Value (summary', detailed_results') /\
    total_is_sum summary' /\
    List.length detailed_results'
    = List.length detailed_results + List.length api_responses.
Proof.
  revert i summary detailed_results.
  induction api_responses as [| response rest IH];
    intros i summary detailed_results Hsum.
  - exists summary, detailed_results. simpl. repeat split; auto.
  - cbn [validation_loop].
    destruct (evaluator_batch (suite_pool suite i)
                (extract_links (a_response response))) as [Hall Hlen].
    cbv zeta in Hall, Hlen.
    set (link_results :=
           match extract_links (a_response response) with
           | [] => []
           | _ :: _ =>
               results (validate_links (suite_pool suite i)
                          link_validator_max_retries
                          (extract_links (a_response response)) false)
           end) in *.
    destruct (with_status_split link_results Hall)
      as (valid & warning & invalid & Hv & Hw & Hi & Hsplit).
    rewrite Hv, Hw, Hi. cbn [and_then].
    match goal with
    | |- context [validation_loop suite (S i) rest ?s ?d] =>
        destruct (IH (S i) s d) as (s' & d' & Hrun & Hinv & Hd)
    end.
    { unfold total_is_sum in *. simpl. lia. }
    exists s', d'. split; [exact Hrun |]. split; [exact Hinv |].
    rewrite Hd, length_app. simpl. lia.
Qed.

(** The average is computed without raising: the list divided by is not
    empty. *)
Lemma average_response_time_value (detailed_results : list Detail) :
  exists average, average_response_time detailed_results = Value average.
Proof.
  destruct detailed_results as [| r rest]; [now exists 0%Q |].
  unfold average_response_time, true_div.
  destruct (Qeq_bool (inject_Z (Z.of_nat (List.length (r :: rest)))) 0) eqn:E;
    [| eauto].
  apply Qeq_bool_iff in E. unfold Qeq in E. simpl in E. lia.
Qed.

(** C8: whatever session id and responses the API client and the store
    give, the aggregation of a prompt version's run does not raise; it
    computes a PerPromptEvaluation whenever the session id is not empty;
    and in every PerPromptEvaluation it computes, the total link count is
    the sum of the valid, warning and invalid link counts. *)
Theorem total_links_is_sum (session_name : string)
    (prompt_version : PromptVersion) (questions : list TestQuestion)
    (suite : Suite) :
  exists outcome,
    run_single_prompt_evaluation session_name prompt_version questions suite
    = Value outcome /\
    (outcome = None <-> falsy (suite_session_id suite) = true) /\
    forall evaluation, outcome = Some evaluation ->
      total_links (e_link_validation_summary evaluation)
      = valid_links (e_link_validation_summary evaluation)
        + warning_links (e_link_validation_summary evaluation)
        + invalid_links (e_link_validation_summary evaluation).
Proof.
  unfold run_single_prompt_evaluation.
  destruct (falsy (suite_session_id suite)).
  - exists None. split; [reflexivity |]. split; [tauto | discriminate].
  - destruct (validation_loop_total suite (suite_responses suite) 0
                empty_summary []) as (s' & d' & Hrun & Hinv & _).
    { reflexivity. }
    rewrite Hrun. cbn [and_then].
    destruct (average_response_time_value d') as [average ->]. cbn [and_then].
    eexists. split; [reflexivity |].
    split; [split; intros H; discriminate H |].
    intros evaluation [= <-]. exact Hinv.
Qed.

(** C10: when the run of a prompt version has a session id and an empty
    list of responses, the evaluation is computed: nothing raises, its list
    of detailed results is empty, its link counts and response counts are 0
    and its average response time is 0.  The guard is what gives this
    average: the division of the sum by the number of detailed results,
    made on this empty list, raises. *)
Theorem empty_run_average_zero (session_name : string)
    (prompt_version : PromptVersion) (questions : list TestQuestion)
    (suite : Suite) :
  falsy (suite_session_id suite) = false ->
  suite_responses suite = [] ->
  exists evaluation,
    run_single_prompt_evaluation session_name prompt_version questions suite
    = Value (Some evaluation) /\
    e_detailed_results evaluation = [] /\
    e_link_validation_summary evaluation = empty_summary /\
    successful_responses (e_performance_metrics evaluation) = 0 /\
    failed_responses (e_performance_metrics evaluation) = 0 /\
    avg_response_time_ms (e_performance_metrics evaluation) = 0%Q /\
    true_div (inject_Z (total_response_time (e_detailed_results evaluation)))
      (inject_Z (Z.of_nat (List.length (e_detailed_results evaluation))))
    = Raise "division by zero".
Proof.
  intros Hid Hempty. unfold run_single_prompt_evaluation.
  rewrite Hid, Hempty. cbn. eexists. split; [reflexivity |].
  cbn. splits; reflexivity.
Qed.

Lemma empty_run_average_zero_witness :
  exists evaluation,
    run_single_prompt_evaluation "Multi-Prompt Evaluation" prompt_v1
      example_questions (example_suite [])
    = Value (Some evaluation) /\
    e_detailed_results evaluation = [] /\
    avg_response_time_ms (e_performance_metrics evaluation) = 0%Q.
Proof.
  destruct (empty_run_average_zero "Multi-Prompt Evaluation" prompt_v1
              example_questions (example_suite []) eq_refl eq_refl)
    as (evaluation & Hrun & Hd & _ & _ & _ & Havg & _).
  exists evaluation. auto.
Defined.

(** ** The comparison summary *)

Lemma Qgtb_true (a b : Q) : Qgtb a b = true <-> (b < a)%Q.
Proof.
  unfold Qgtb. rewrite negb_true_iff. split.
  - intros H. apply Qnot_le_lt. intros Hle.
    apply Qle_bool_iff in Hle. congruence.
  - intros H. destruct (Qle_bool a b) eqn:E; [| reflexivity].
    apply Qle_bool_iff in E. exfalso. now apply (Qlt_not_le b a).
Qed.

Lemma Qgtb_false (a b : Q) : Qgtb a b = false <-> (a <= b)%Q.
Proof.
  unfold Qgtb. rewrite negb_false_iff. apply Qle_bool_iff.
Qed.

(** A rate is never negative. *)
Lemma link_success_rate_nonneg (s : LinkSummary) : (0 <= link_success_rate s)%Q.
Proof.
  unfold link_success_rate. destruct (0 <? total_links s)%nat eqn:E.
  - apply Nat.ltb_lt in E. apply Qmult_le_0_compat.
    + apply Qle_shift_div_l.
      * unfold Qlt. simpl. lia.
      * rewrite Qmult_0_l. unfold Qle. simpl. lia.
    + unfold Qle. simpl. lia.
  - unfold Qle. simpl. lia.
Qed.

Lemma compare_all_cons (item : string * Evaluation) (rest : Dict Evaluation)
    (b : Bests) :
  compare_all (item :: rest) b = compare_all rest (compare_one b (snd item)).
Proof. reflexivity. Qed.

(** The scan for the best link score: either no entry beats the score held
    at the start and the held name stays, or the name kept is that of the
    first entry of highest rate. *)
Lemma compare_all_links (items : Dict Evaluation) (b : Bests) :
  (best_link_score (compare_all items b) = best_link_score b /\
   best_for_links (compare_all items b) = best_for_links b /\
   forall j r, rate_at items j = Some r -> (r <= best_link_score b)%Q)
  \/
  (exists i name rate,
     name_at items i = Some name /\ rate_at items i = Some rate /\
     best_link_score (compare_all items b) = rate /\
     best_for_links (compare_all items b) = Some name /\
     (best_link_score b < rate)%Q /\
     (forall j r, rate_at items j = Some r -> (r <= rate)%Q) /\
     (forall j r, j < i -> rate_at items j = Some r -> (r < rate)%Q)).
Proof.
  revert b. induction items as [| item rest IH]; intros b.
  - left. repeat split. intros j r H. destruct j; discriminate.
  - rewrite compare_all_cons.
    set (rate0 := link_success_rate (e_link_validation_summary (snd item))).
    set (name0 := pv_name (e_prompt_version (snd item))).
    destruct (Qgtb rate0 (best_link_score b)) eqn:E.
    + assert (Hs : best_link_score (compare_one b (snd item)) = rate0).
      { unfold compare_one. fold rate0. now rewrite E. }
      assert (Hn : best_for_links (compare_one b (snd item)) = Some name0).
      { unfold compare_one. fold rate0. now rewrite E. }
      apply Qgtb_true in E. right.
      destruct (IH (compare_one b (snd item)))
        as [(H1 & H2 & H3) | (i & name & rate & Hni & Hri & H1 & H2 & Hlt & Hall & Hbefore)].
      * exists 0, name0, rate0. rewrite H1, H2, Hs, Hn.
        repeat split; auto.
        -- intros j r Hj. destruct j as [| j].
           ++ injection Hj as <-. apply Qle_refl.
           ++ rewrite <- Hs. now apply (H3 j).
        -- intros j r Hj. lia.
      * rewrite Hs in Hlt. exists (S i), name, rate. rewrite H1, H2.
        repeat split; auto.
        -- now apply Qlt_trans with rate0.
        -- intros j r Hj. destruct j as [| j].
           ++ injection Hj as <-. now apply Qlt_le_weak.
           ++ now apply (Hall j).
        -- intros j r Hji Hj. destruct j as [| j].
           ++ injection Hj as <-. exact Hlt.
           ++ apply (Hbefore j); [lia | exact Hj].
    + assert (Hs : best_link_score (compare_one b (snd item)) = best_link_score b).
      { unfold compare_one. fold rate0. now rewrite E. }
      assert (Hn : best_for_links (compare_one b (snd item)) = best_for_links b).
      { unfold compare_one. fold rate0. now rewrite E. }
      apply Qgtb_false in E.
      destruct (IH (compare_one b (snd item)))
        as [(H1 & H2 & H3) | (i & name & rate & Hni & Hri & H1 & H2 & Hlt & Hall & Hbefore)].
      * left. rewrite H1, H2, Hs, Hn. repeat split.
        intros j r Hj. destruct j as [| j].
        -- injection Hj as <-. exact E.
        -- rewrite <- Hs. now apply (H3 j).
      * rewrite Hs in Hlt. right. exists (S i), name, rate. rewrite H1, H2.
        repeat split; auto.
        -- intros j r Hj. destruct j as [| j].
           ++ injection Hj as <-. apply Qlt_le_weak.
              now apply Qle_lt_trans with (best_link_score b).
           ++ now apply (Hall j).
        -- intros j r Hji Hj. destruct j as [| j].
           ++ injection Hj as <-.
              now apply Qle_lt_trans with (best_link_score b).
           ++ apply (Hbefore j); [lia | exact Hj].
Qed.

(** The rate of a version with links is the percentage of its valid and
    warning links. *)
Lemma link_success_rate_percentage (s : LinkSummary) :
  total_links s <> 0 -> (link_success_rate s == percentage s)%Q.
Proof.
  intros H. unfold link_success_rate, percentage.
  destruct (0 <? total_links s)%nat eqn:E;
    [| apply Nat.ltb_ge in E; lia].
  field. intros H0. unfold Qeq in H0. simpl in H0. lia.
Qed.

(** C7: for a session with results, the summary names as best for links the
    first prompt version, in the order the results were recorded, whose
    rate is highest: no version has a higher rate and every earlier version
    has a strictly lower one.  The rate of a version is the percentage
    (valid + warning) / total * 100 of its links, and 100 for a version
    with no link at all. *)
Theorem best_for_links_first_maximum (evaluator : Evaluator)
    (session : EvaluationSession) :
  current_session evaluator = Some session ->
  s_results session <> [] ->
  (forall s, total_links s = 0 -> link_success_rate s = 100%Q) /\
  (forall s, total_links s <> 0 -> (link_success_rate s == percentage s)%Q) /\
  exists summary i name rate,
    generate_comparison_summary evaluator = Some summary /\
    best_prompt_for_links summary = Some name /\
    name_at (s_results session) i = Some name /\
    rate_at (s_results session) i = Some rate /\
    (forall j r, rate_at (s_results session) j = Some r -> (r <= rate)%Q) /\
    (forall j r, j < i -> rate_at (s_results session) j = Some r -> (r < rate)%Q).
Proof.
  intros Hsession Hne. split; [| split].
  - intros s H. unfold link_success_rate. now rewrite H.
  - apply link_success_rate_percentage.
  - unfold generate_comparison_summary. rewrite Hsession.
    destruct (s_results session) as [| item rest] eqn:Hitems; [congruence |].
    destruct (compare_all_links (item :: rest) initial_bests)
      as [(_ & _ & H3) | (i & name & rate & Hni & Hri & H1 & H2 & _ & Hall & Hbefore)].
    + exfalso.
      specialize (H3 0 _ eq_refl). simpl in H3.
      pose proof (link_success_rate_nonneg (e_link_validation_summary (snd item)))
        as Hpos.
      assert (Hbad : (0 <= -1)%Q) by (eapply Qle_trans; eassumption).
      unfold Qle in Hbad. simpl in Hbad. lia.
    + eexists. exists i, name, rate. split; [reflexivity |]. simpl.
      repeat split; auto.
Qed.

Lemma best_for_links_first_maximum_witness :
  exists summary,
    generate_comparison_summary tied_evaluator = Some summary /\
    best_prompt_for_links summary = Some "Baseline Prompt (Current)".
Proof.
  destruct (best_for_links_first_maximum tied_evaluator
              {| s_id := "session-1"; s_name := "Multi-Prompt Evaluation";
                 s_description := "Comparative evaluation";
                 s_test_questions := example_questions;
                 s_prompt_versions := [prompt_v1; prompt_v2];
                 s_results :=
                   [("prompt_v1", example_evaluation prompt_v1 1 1 0 0 120%Q);
                    ("prompt_v2", example_evaluation prompt_v2 0 0 0 0 90%Q)] |}
              eq_refl ltac:(discriminate))
    as (_ & _ & summary & i & name & rate & Hsum & _).
  exists summary. split; [exact Hsum |].
  vm_compute in Hsum. injection Hsum as <-. reflexivity.
Defined.

(** ** The human gate and the abort directive *)

(** The gate leaves through [SystemExit] with status 0 only. *)
Lemma wait_for_prompt_change_exit (lines : list string) (code : Z) :
  fst (wait_for_prompt_change lines) = SystemExit code -> code = 0%Z.
Proof.
  induction lines as [| line rest IH]; simpl; [discriminate |].
  destruct (String.eqb (str_lower (strip line)) ""); [discriminate |].
  destruct (String.eqb (str_lower (strip line)) "skip"); [discriminate |].
  destruct (String.eqb (str_lower (strip line)) "quit"); [| exact IH].
  simpl. now intros [= <-].
Qed.

Lemma dict_get_set {V : Type} (d : Dict V) (k id : string) (v ev : V) :
  dict_get (dict_set d k v) id = Some ev ->
  (id = k /\ ev = v) \/ dict_get d id = Some ev.
Proof.
  induction d as [| [k' v'] rest IH]; simpl.
  - destruct (String.eqb id k) eqn:E; [| discriminate].
    apply String.eqb_eq in E. intros [= <-]. now left.
  - destruct (String.eqb k k') eqn:Ek; simpl.
    + apply String.eqb_eq in Ek. subst k'.
      destruct (String.eqb id k) eqn:E.
      * apply String.eqb_eq in E. intros [= <-]. now left.
      * intros H. now right.
    + destruct (String.eqb id k') eqn:E.
      * intros H. now right.
      * exact IH.
Qed.

(** When the loop over the versions is left through [SystemExit], the
    session has gained the versions started and nothing else; the local
    [all_results] holds what it held at the start and the evaluations of
    versions started since. *)
Lemma prompt_loop_exited (stage_suites : nat -> Suite)
    (questions : list TestQuestion) (prompt_versions : list PromptVersion)
    (i : nat) (lines : list string) (session : EvaluationSession)
    (all_results : Dict Evaluation) (code : Z) (local : Dict Evaluation)
    (session' : EvaluationSession) :
  prompt_loop stage_suites questions i prompt_versions lines session all_results
  = Exited code local session' ->
  code = 0%Z /\
  s_results session' = s_results session /\
  exists started,
    s_prompt_versions session' = s_prompt_versions session ++ started /\
    incl started prompt_versions /\
    forall id ev, dict_get local id = Some ev ->
      dict_get all_results id = Some ev \/
      exists pv, In pv started /\ pv_id pv = id.
Proof.
  revert i lines session all_results.
  induction prompt_versions as [| pv rest IH];
    intros i lines session all_results; simpl;
    [intros H; discriminate H |].
  pose proof (wait_for_prompt_change_exit lines) as Hexit.
  destruct (wait_for_prompt_change lines) as [[[] | code' |] lines'].
  - destruct (run_single_prompt_evaluation (s_name session)
                pv questions (stage_suites i)) as [[result |] | e];
      [| | intros H; discriminate H].
    + intros H. apply IH in H.
      destruct H as (Hc & Hres & started & Hpv & Hincl & Hids).
      split; [exact Hc |]. split; [exact Hres |].
      exists (pv :: started). split; [| split].
      * rewrite Hpv. simpl. now rewrite <- app_assoc.
      * intros x [<- | Hx]; [now left | right; now apply Hincl].
      * intros id ev Hget. destruct (Hids id ev Hget) as [Hset | (pv' & Hin & Hid)].
        -- apply dict_get_set in Hset. destruct Hset as [[-> _] | Hold].
           ++ right. exists pv. split; [now left | reflexivity].
           ++ now left.
        -- right. exists pv'. split; [now right | exact Hid].
    + intros H. apply IH in H.
      destruct H as (Hc & Hres & started & Hpv & Hincl & Hids).
      split; [exact Hc |]. split; [exact Hres |].
      exists (pv :: started). split; [| split].
      * rewrite Hpv. simpl. now rewrite <- app_assoc.
      * intros x [<- | Hx]; [now left | right; now apply Hincl].
      * intros id ev Hget. destruct (Hids id ev Hget) as [Hold | (pv' & Hin & Hid)].
        -- now left.
        -- right. exists pv'. split; [now right | exact Hid].
  - intros H. apply IH in H.
    destruct H as (Hc & Hres & started & Hpv & Hincl & Hids).
    split; [exact Hc |]. split; [exact Hres |].
    exists started. split; [exact Hpv |]. split; [| exact Hids].
    intros x Hx. right. now apply Hincl.
  - intros [= <- <- <-]. split; [now apply Hexit |]. split; [reflexivity |].
    exists []. split; [now rewrite app_nil_r |]. split.
    + intros x [].
    + intros id ev H. now left.
  - intros H. discriminate H.
Qed.

(** C1, as stated, fails: the operator lets the first version run and quits
    at the second gate; the evaluation recorded for the first version is in
    the local mapping only, and the results of the session are empty. *)
Lemma recorded_version_lost_on_abort :
  exists local evaluator' session' evaluation,
    run_multi_prompt_evaluation fresh_evaluator quit_at_second_gate
      [prompt_v1; prompt_v2] None
    = Exits 0 local evaluator' /\
    dict_get local "prompt_v1" = Some evaluation /\
    current_session evaluator' = Some session' /\
    dict_get (s_results session') "prompt_v1" = None /\
    dict_get (results_by_prompt evaluator') "prompt_v1" = None.
Proof.
  do 4 eexists. split; [vm_compute; reflexivity |].
  split; [vm_compute; reflexivity |].
  split; [reflexivity |]. split; reflexivity.
Qed.

(** The gate passes over the lines it does not recognise. *)
Lemma wait_for_prompt_change_unrecognised (ignored lines : list string) :
  Forall unrecognised ignored ->
  wait_for_prompt_change (ignored ++ lines) = wait_for_prompt_change lines.
Proof.
  induction 1 as [| line rest (H1 & H2 & H3) _ IH]; [reflexivity |].
  simpl. apply String.eqb_neq in H1, H2, H3. now rewrite H1, H2, H3.
Qed.

(** C1, amended: when the operator issues the abort directive at the gate
    (the word quit in any case, spaces around it and unrecognised lines
    before it being passed over), the gate leaves through SystemExit with
    status 0 and the loop over the versions ends at once, nothing being
    run or recorded for the version at this gate; the run ends through
    this SystemExit only with status 0.  The versions started so far are
    then in the prompt-version list of the session, but its results mapping
    and the evaluator's results are left as they were before the run: the
    evaluations of the versions completed in this run are in the local
    mapping of the run only. *)
Theorem abort_leaves_session_results (evaluator : Evaluator) (stage : Stage)
    (prompt_versions : list PromptVersion)
    (questions : option (list TestQuestion)) :
  (forall ignored line rest,
     Forall unrecognised ignored -> str_lower (strip line) = "quit" ->
     wait_for_prompt_change (ignored ++ line :: rest) = (SystemExit 0, rest)) /\
  (forall stage_suites qs i pv rest lines session all_results code,
     fst (wait_for_prompt_change lines) = SystemExit code ->
     prompt_loop stage_suites qs i (pv :: rest) lines session all_results
     = Exited code all_results session) /\
  (forall code local evaluator',
     run_multi_prompt_evaluation evaluator stage prompt_versions questions
     = Exits code local evaluator' ->
     code = 0%Z /\
     results_by_prompt evaluator' = results_by_prompt evaluator /\
     exists session session' started,
       current_session evaluator = Some session /\
       current_session evaluator' = Some session' /\
       s_results session' = s_results session /\
       s_prompt_versions session' = s_prompt_versions session ++ started /\
       incl started prompt_versions /\
       forall id ev, dict_get local id = Some ev ->
         exists pv, In pv started /\ pv_id pv = id).
Proof.
  split; [| split].
  - intros ignored line rest Hign Hquit.
    rewrite (wait_for_prompt_change_unrecognised ignored (line :: rest) Hign).
    simpl. now rewrite Hquit.
  - intros stage_suites qs i pv rest lines session all_results code Hgate.
    simpl. destruct (wait_for_prompt_change lines) as [gate lines'].
    simpl in Hgate. now subst gate.
  - intros code local evaluator'. unfold run_multi_prompt_evaluation.
    destruct (current_session evaluator) as [session |] eqn:Hs;
      [| intros H; discriminate H].
    destruct (negb (api_connection stage)); [intros H; discriminate H |].
    match goal with
    | |- context [prompt_loop ?su ?qs 0 prompt_versions ?li session []] =>
        destruct (prompt_loop su qs 0 prompt_versions li session [])
          as [all_results s' | code' all_results s' | e all_results s'] eqn:Hloop
    end; try (intros H; discriminate H).
    intros [= <- <- <-].
    apply prompt_loop_exited in Hloop.
    destruct Hloop as (Hc & Hres & started & Hpv & Hincl & Hids).
    split; [exact Hc |]. split; [reflexivity |].
    exists session, s', started. repeat split; auto.
    intros id ev Hget. destruct (Hids id ev Hget) as [Hold | Hnew];
      [discriminate Hold | exact Hnew].
Qed.

Lemma abort_leaves_session_results_witness :
  exists local evaluator',
    run_multi_prompt_evaluation fresh_evaluator quit_at_second_gate
      [prompt_v1; prompt_v2] None
    = Exits 0 local evaluator' /\
    results_by_prompt evaluator' = results_by_prompt fresh_evaluator.
Proof.
  destruct (run_multi_prompt_evaluation fresh_evaluator quit_at_second_gate
              [prompt_v1; prompt_v2] None)
    as [value ev | code local ev | msg ev] eqn:Hrun;
    [vm_compute in Hrun; discriminate Hrun | | vm_compute in Hrun; discriminate Hrun].
  destruct (proj2 (proj2 (abort_leaves_session_results fresh_evaluator
                            quit_at_second_gate [prompt_v1; prompt_v2] None))
              code local ev Hrun) as (-> & Hres & _).
  exists local, ev. split; [reflexivity | exact Hres].
Defined.
